(** * DCT-domain image steganography ([main.py], class [DCTSteganography])

    A shallow embedding of the payload codec, the capacity guard, the
    quantiser with its single-coefficient bit modulation, the padding and
    block traversal, and the two drivers [hide_message] / [reveal_message].

    Conventions.
    - A Python [str] is a list of code points ([Py.str]); string literals of
      the program are written [Py.lit "..."].
    - Python integers are [Z]; numpy [int32]/[int64] values are [Z] inside
      their range; [uint8] samples are [Z] in [0, 256).
    - Floating-point coefficients are IEEE binary64 values ([float]); a
      [float32] value is carried by the binary64 value it widens to.
    - The collaborators the program calls but does not define (OpenCV's
      per-pixel colour conversion, SciPy's one-dimensional DCT and inverse
      DCT, and what [cv2.imwrite] does for a path and an image) are the
      fields of the record [externals]. *)

From Stdlib Require Import ZArith QArith Qabs String Ascii Lia ZifyNat.
From Stdlib Require Import Numbers.Cyclic.Int63.Uint63.
From Stdlib Require Import Floats.PrimFloat Floats.SpecFloat Floats.FloatOps.
From Stdlib Require Import Floats.FloatAxioms.
From stdpp Require Import list gmap strings.

Local Open Scope Z_scope.

(** ** Python built-ins used by the program *)

Module Py.

(** [str]: a sequence of Unicode code points. *)
Abbreviation str := (list Z).
(** [bytes]: a sequence of integers in [0, 256). *)
Abbreviation bytes := (list Z).

(** A source-code string literal (ASCII). *)
Definition lit (s : string) : str :=
  (λ a, Z.of_nat (nat_of_ascii a)) <$> list_ascii_of_string s.

Inductive exn :=
| FileNotFoundError (msg : str)
| ValueError (msg : str)
| UnicodeEncodeError (position : nat)
| IndexError
| CvError.

(** Outcome of a call: a returned value or a raised exception. *)
Inductive result (A : Type) :=
| Return (a : A)
| Raise (e : exn).
Global Arguments Return {A} a.
Global Arguments Raise {A} e.

Global Instance result_ret : MRet result := λ A a, Return a.
Global Instance result_bind : MBind result := λ A B f m,
  match m with
  | Return a => f a
  | Raise e => Raise e
  end.

(** *** [format(n, 'b')] and [format(n, '0{width}b')] *)

Fixpoint bin_pos (p : positive) : str :=
  match p with
  | xH => [49]
  | xO p' => bin_pos p' ++ [48]
  | xI p' => bin_pos p' ++ [49]
  end.

Definition bin_digits (n : Z) : str :=
  match n with
  | Z0 => [48]
  | Zpos p => bin_pos p
  | Zneg p => bin_pos p
  end.

(** Zero padding is sign-aware: the sign comes first, then the zeros. *)
Definition format_0b (width : nat) (n : Z) : str :=
  let digits := bin_digits n in
  if n <? 0
  then 45 :: replicate (width - 1 - length digits) 48 ++ digits
  else replicate (width - length digits) 48 ++ digits.

(** *** [str(n)] for an integer *)

Fixpoint dec_uint (u : Decimal.uint) : str :=
  match u with
  | Decimal.Nil => []
  | Decimal.D0 u' => 48 :: dec_uint u'
  | Decimal.D1 u' => 49 :: dec_uint u'
  | Decimal.D2 u' => 50 :: dec_uint u'
  | Decimal.D3 u' => 51 :: dec_uint u'
  | Decimal.D4 u' => 52 :: dec_uint u'
  | Decimal.D5 u' => 53 :: dec_uint u'
  | Decimal.D6 u' => 54 :: dec_uint u'
  | Decimal.D7 u' => 55 :: dec_uint u'
  | Decimal.D8 u' => 56 :: dec_uint u'
  | Decimal.D9 u' => 57 :: dec_uint u'
  end.

Definition str_of_int (n : Z) : str :=
  match n with
  | Z0 => [48]
  | Zpos p => dec_uint (Pos.to_uint p)
  | Zneg p => 45 :: dec_uint (Pos.to_uint p)
  end.

(** *** [int(s, base)] on a string of digits

    Only plain digit strings are accepted here; every other string is a
    [ValueError].  (Python also accepts a sign, a base prefix, surrounding
    white space and single underscores; the program never builds such a
    string, and rejecting them only makes "parsing succeeds" harder.) *)

Definition digit_value (base c : Z) : option Z :=
  if (48 <=? c) && (c <? 48 + base) && (c <=? 57) then Some (c - 48) else None.

Fixpoint digits_value (base : Z) (acc : Z) (s : str) : option Z :=
  match s with
  | [] => Some acc
  | c :: s' =>
      match digit_value base c with
      | Some d => digits_value base (acc * base + d) s'
      | None => None
      end
  end.

Definition int_of (base : Z) (s : str) : result Z :=
  match s with
  | [] => Raise (ValueError (lit "invalid literal for int()"))
  | _ =>
      match digits_value base 0 s with
      | Some v => Return v
      | None => Raise (ValueError (lit "invalid literal for int()"))
      end
  end.

(** *** [s.encode('utf-8')] *)

Definition utf8_encode_char (c : Z) : option bytes :=
  if c <? 0 then None
  else if c <? 0x80 then Some [c]
  else if c <? 0x800 then
    Some [Z.lor 0xC0 (c ≫ 6); Z.lor 0x80 (Z.land c 0x3F)]
  else if c <? 0x10000 then
    if (0xD800 <=? c) && (c <=? 0xDFFF) then None
    else Some [Z.lor 0xE0 (c ≫ 12);
               Z.lor 0x80 (Z.land (c ≫ 6) 0x3F);
               Z.lor 0x80 (Z.land c 0x3F)]
  else if c <? 0x110000 then
    Some [Z.lor 0xF0 (c ≫ 18);
          Z.lor 0x80 (Z.land (c ≫ 12) 0x3F);
          Z.lor 0x80 (Z.land (c ≫ 6) 0x3F);
          Z.lor 0x80 (Z.land c 0x3F)]
  else None.

Fixpoint utf8_encode_from (position : nat) (s : str) : result bytes :=
  match s with
  | [] => Return []
  | c :: s' =>
      match utf8_encode_char c with
      | Some bs => tl ← utf8_encode_from (S position) s'; Return (bs ++ tl)
      | None => Raise (UnicodeEncodeError position)
      end
  end.

Definition utf8_encode (s : str) : result bytes := utf8_encode_from 0 s.

(** *** [b.decode('utf-8', errors='ignore')]

    CPython's decoder: a well-formed sequence yields its code point; an
    invalid start byte is skipped alone; after a valid lead byte the
    longest prefix that could still begin a well-formed sequence is
    skipped; a sequence cut off by the end of the data is dropped. *)

Definition is_continuation (b : Z) : bool := (0x80 <=? b) && (b <? 0xC0).

Fixpoint utf8_decode_ignore (b : bytes) : str :=
  match b with
  | [] => []
  | ch :: rest =>
      if ch <? 0x80 then ch :: utf8_decode_ignore rest
      else if ch <? 0xC2 then utf8_decode_ignore rest
      else if ch <? 0xE0 then
        match rest with
        | [] => []
        | ch2 :: rest2 =>
            if is_continuation ch2
            then ((ch ≪ 6) + ch2 - (Z.lor (0xC0 ≪ 6) 0x80))
                   :: utf8_decode_ignore rest2
            else utf8_decode_ignore rest
        end
      else if ch <? 0xF0 then
        match rest with
        | [] => []
        | ch2 :: rest2 =>
            if negb (is_continuation ch2)
               || (if ch2 <? 0xA0 then ch =? 0xE0 else ch =? 0xED)
            then utf8_decode_ignore rest
            else
              match rest2 with
              | [] => []
              | ch3 :: rest3 =>
                  if is_continuation ch3
                  then ((ch ≪ 12) + (ch2 ≪ 6) + ch3
                        - (Z.lor (Z.lor (0xE0 ≪ 12) (0x80 ≪ 6)) 0x80))
                         :: utf8_decode_ignore rest3
                  else utf8_decode_ignore rest2
              end
        end
      else if ch <? 0xF5 then
        match rest with
        | [] => []
        | ch2 :: rest2 =>
            if negb (is_continuation ch2)
               || (if ch2 <? 0x90 then ch =? 0xF0 else ch =? 0xF4)
            then utf8_decode_ignore rest
            else
              match rest2 with
              | [] => []
              | ch3 :: rest3 =>
                  if negb (is_continuation ch3)
                  then utf8_decode_ignore rest2
                  else
                    match rest3 with
                    | [] => []
                    | ch4 :: rest4 =>
                        if is_continuation ch4
                        then ((ch ≪ 18) + (ch2 ≪ 12) + (ch3 ≪ 6) + ch4
                              - (Z.lor (Z.lor (Z.lor (0xF0 ≪ 18) (0x80 ≪ 12))
                                              (0x80 ≪ 6)) 0x80))
                               :: utf8_decode_ignore rest4
                        else utf8_decode_ignore rest3
                    end
              end
        end
      else utf8_decode_ignore rest
  end.

End Py.

(** ** numpy semantics used by the program *)

Module Np.

Abbreviation matrix A := (list (list A)).

(** [a.shape] of a two-dimensional array held as a list of rows. *)
Definition shape {A} (a : matrix A) : nat * nat :=
  (length a, match a with [] => 0%nat | row :: _ => length row end).

(** Integer to float conversion (exact below 2^53 in magnitude). *)
Definition of_int (z : Z) : float :=
  match z with
  | Z0 => 0%float
  | Zpos _ => PrimFloat.of_uint63 (Uint63.of_Z z)
  | Zneg p => PrimFloat.opp (PrimFloat.of_uint63 (Uint63.of_Z (Zpos p)))
  end.

(** The rational value of a finite binary float, [None] for infinities
    and NaN. *)
Definition sf_value (x : spec_float) : option Q :=
  match x with
  | S754_zero _ => Some 0%Q
  | S754_finite s m e =>
      let mag := if 0 <=? e then inject_Z (Zpos m * 2 ^ e)
                 else Qmake (Zpos m) (Z.to_pos (2 ^ (- e))) in
      Some (if s then Qopp mag else mag)
  | _ => None
  end.

(** [np.round]: to the nearest integer, ties to the even one. *)
Definition round_half_even (m : positive) (e : Z) : Z :=
  if 0 <=? e then Zpos m * 2 ^ e
  else
    let d := 2 ^ (- e) in
    let q := Zpos m / d in
    let r := Zpos m mod d in
    match 2 * r ?= d with
    | Lt => q
    | Gt => q + 1
    | Eq => if Z.even q then q else q + 1
    end.

Definition sf_round (x : spec_float) : option Z :=
  match x with
  | S754_zero _ => Some 0
  | S754_finite s m e =>
      Some (if s then - round_half_even m e else round_half_even m e)
  | _ => None
  end.

(** [.astype(np.int32)] of an integral double: the value when it fits,
    and the x86-64 "integer indefinite" value for anything else. *)
Definition astype_int32 (v : option Z) : Z :=
  match v with
  | Some z => if (- 2 ^ 31 <=? z) && (z <? 2 ^ 31) then z else - 2 ^ 31
  | None => - 2 ^ 31
  end.

(** [np.round(x).astype(np.int32)] on one element. *)
Definition round_int32 (x : float) : Z := astype_int32 (sf_round (Prim2SF x)).

(** [np.clip(x, 0, 255)] on one element. *)
Definition clip_0_255 (x : float) : float :=
  if PrimFloat.ltb x 0 then 0%float
  else if PrimFloat.ltb 255 x then 255%float
  else x.

(** Truncation toward zero, as the C cast does. *)
Definition sf_trunc (x : spec_float) : option Z :=
  match x with
  | S754_zero _ => Some 0
  | S754_finite s m e =>
      let mag := if 0 <=? e then Zpos m * 2 ^ e else Zpos m / 2 ^ (- e) in
      Some (if s then - mag else mag)
  | _ => None
  end.

(** [.astype(np.uint8)] on one element. *)
Definition astype_uint8 (x : float) : Z :=
  match sf_trunc (Prim2SF x) with
  | Some z => z mod 256
  | None => 0
  end.

(** Element-wise application of [f]. *)
Definition map2d {A B : Type} (f : A → B) (a : list (list A)) : list (list B) :=
  (λ row : list A, f <$> row) <$> a.

(** [a.T] *)
Definition transpose {A} (d : A) (a : matrix A) : matrix A :=
  (λ j, (λ row, nth j row d) <$> a) <$> seq 0 (shape a).2.

(** [range(0, stop, step)] *)
Definition range_step (stop step : nat) : list nat :=
  (λ k, (k * step)%nat) <$> seq 0 ((stop + step - 1) / step).

(** [a[i:i+8, j:j+8]] *)
Definition slice8 {A} (a : matrix A) (i j : nat) : matrix A :=
  (λ row, take 8 (drop j row)) <$> take 8 (drop i a).

(** [a[i:i+8, j:j+8] = b]; numpy refuses a block of another shape. *)
Definition assign_slice8 {A} (a : matrix A) (i j : nat) (b : matrix A)
  : Py.result (matrix A) :=
  if decide (shape b = shape (slice8 a i j)
             ∧ Forall (λ row, length row = (shape b).2) b)
  then Py.Return
         (take i a
          ++ zip_with (λ row brow, take j row ++ brow ++ drop (j + 8) row)
                      (take 8 (drop i a)) b
          ++ drop (i + 8) a)
  else Py.Raise (Py.ValueError (Py.lit "could not broadcast input array")).

End Np.

(** ** The class [DCTSteganography] *)

Module DCTSteganography.
Import Py Np.

(** One [img[r, c, :]] triple of [uint8] samples. *)
Abbreviation pixel := (Z * Z * Z)%type.
(** An [h x w x 3] raster, as [cv2.imread] returns it. *)
Abbreviation image := (list (list pixel)).
(** One [h x w] channel. *)
Abbreviation plane := (list (list Z)).

(** What [cv2.imwrite(path, img, params)] does with the file.  OpenCV picks
    the encoder by the extension of [path], and whether a file can be
    created there is a matter of directories and permissions, which the
    file system of the model does not hold: both belong to the environment.
    - [Stored decoded]: the call returns [True] and leaves a file that
      [cv2.imread] decodes to [decoded] (the image itself when the format
      is lossless, another raster when it is not).
    - [NotStored]: the call returns [False]; the file could not be created
      (a missing directory, say) and nothing is written.
    - [NoEncoder]: the call raises [cv2.error], there being no encoder for
      the extension of [path]. *)
Inductive write_outcome :=
| Stored (decoded : image)
| NotStored
| NoEncoder.

(** The collaborators: OpenCV's per-pixel colour conversions, SciPy's
    [dct(., norm='ortho')] / [idct(., norm='ortho')] along one row, in
    single precision and (inverse only) in double precision, and the
    outcome of [cv2.imwrite] for a path and an image. *)
Record externals := {
  cvt_BGR2YCrCb : pixel → pixel;
  cvt_YCrCb2BGR : pixel → pixel;
  dct_f32 : list float → list float;
  idct_f32 : list float → list float;
  idct_f64 : list float → list float;
  imwrite : str → image → write_outcome
}.

(** What the program relies on: the transforms return as many values as
    they are given. *)
Definition shape_preserving (E : externals) : Prop :=
  (∀ v, length (dct_f32 E v) = length v)
  ∧ (∀ v, length (idct_f32 E v) = length v)
  ∧ (∀ v, length (idct_f64 E v) = length v).

(** An element of the Python list [dct_blocks]: the [float32] output of the
    transform, or the [int64] product written back by the embedding loop. *)
Inductive ndarray :=
| Float32 (a : matrix float)
| Int64 (a : matrix Z).

(** The file system and the terminal. *)
Record world := {
  files : gmap str image;
  stdout : list str
}.

(** *** [__init__] *)

Definition quantization_table : matrix Z :=
  [ [16; 11; 10; 16; 24; 40; 51; 61]; [12; 12; 14; 19; 26; 58; 60; 55];
    [14; 13; 16; 24; 40; 57; 69; 56]; [14; 17; 22; 29; 51; 87; 80; 62];
    [18; 22; 37; 56; 68; 109; 103; 77]; [24; 35; 55; 64; 81; 104; 113; 92];
    [49; 64; 78; 87; 103; 121; 120; 101]; [72; 92; 95; 98; 112; 100; 103; 99] ].

Definition LENGTH_HEADER_BITS : nat := 32.

(** [l[i]] *)
Definition getitem {A} (l : list A) (i : nat) : result A :=
  match l !! i with
  | Some x => Return x
  | None => Raise IndexError
  end.

(** *** [_message_to_binary] *)

Definition _message_to_binary (message : str) : result str :=
  message_bytes ← utf8_encode message;
  Return (concat (format_0b 8 <$> message_bytes)).

(** *** [_binary_to_message] *)

Fixpoint group_bytes (binary_message : str) (starts : list nat)
    (byte_values : list Z) : result (list Z) :=
  match starts with
  | [] => Return byte_values
  | i :: starts' =>
      let byte_segment := take 8 (drop i binary_message) in
      if (length byte_segment <? 8)%nat then Return byte_values
      else
        v ← int_of 2 byte_segment;
        group_bytes binary_message starts' (byte_values ++ [v])
  end.

(** [bytes(values)] *)
Definition to_bytes (values : list Z) : result bytes :=
  if forallb (λ v, (0 <=? v) && (v <? 256)) values
  then Return values
  else Raise (ValueError (lit "bytes must be in range(0, 256)")).

(** [decode('utf-8', errors='ignore')] has no failing case. *)
Definition decode_ignore (b : bytes) : result str :=
  Return (utf8_decode_ignore b).

Definition _binary_to_message (binary_message : str) : result (option str) :=
  byte_values ←
    group_bytes binary_message (range_step (length binary_message) 8) [];
  message_bytes ← to_bytes byte_values;
  match decode_ignore message_bytes with
  | Return text => Return (Some text)
  | Raise _ => Return None
  end.

(** *** [_apply_dct] *)

(** [dct(a, norm='ortho')]: along the last axis. *)
Definition dct_rows (E : externals) (a : matrix float) : matrix float :=
  dct_f32 E <$> a.

(** [dct(dct(block.T, norm='ortho').T, norm='ortho')] *)
Definition dct2 (E : externals) (block : matrix float) : matrix float :=
  dct_rows E (transpose 0%float (dct_rows E (transpose 0%float block))).

(** [image_channel[i:i+8, j:j+8].astype(np.float32) - 128] *)
Definition centred_block (image_channel : plane) (i j : nat) : matrix float :=
  map2d (λ sample, PrimFloat.sub (of_int sample) 128%float)
    (slice8 image_channel i j).

Definition _apply_dct (E : externals) (image_channel : plane)
  : list ndarray * nat * nat :=
  let '(h, w) := shape image_channel in
  let dct_blocks :=
    i ← range_step h 8;
    j ← range_step w 8;
    [Float32 (dct2 E (centred_block image_channel i j))] in
  (dct_blocks, h, w).

(** *** [_apply_idct] *)

(** [idct(idct(block.T, norm='ortho').T, norm='ortho')]: single precision
    for a [float32] block, double precision for an [int64] one. *)
Definition idct2 (E : externals) (block : ndarray) : matrix float :=
  match block with
  | Float32 a =>
      idct_f32 E <$> transpose 0%float (idct_f32 E <$> transpose 0%float a)
  | Int64 a =>
      idct_f64 E
        <$> transpose 0%float (idct_f64 E <$> transpose 0%float (map2d of_int a))
  end.

Fixpoint idct_loop (E : externals) (dct_blocks : list ndarray)
    (positions : list (nat * nat)) (reconstructed_image : matrix float)
    (block_index : nat) : result (matrix float) :=
  match positions with
  | [] => Return reconstructed_image
  | (i, j) :: positions' =>
      block ← getitem dct_blocks block_index;
      reconstructed_image' ←
        assign_slice8 reconstructed_image i j (idct2 E block);
      idct_loop E dct_blocks positions' reconstructed_image' (S block_index)
  end.

Definition _apply_idct (E : externals) (dct_blocks : list ndarray) (h w : nat)
  : result (matrix float) :=
  reconstructed_image ←
    idct_loop E dct_blocks
      (i ← range_step h 8; j ← range_step w 8; [(i, j)])
      (replicate h (replicate w 0%float)) 0;
  Return (map2d (λ x, PrimFloat.add x 128%float) reconstructed_image).

(** *** [_pad_image] *)

Definition _pad_image (img : image) : image :=
  let '(h_orig, w_orig) := shape img in
  let h_pad := ((8 - h_orig `mod` 8) `mod` 8)%nat in
  let w_pad := ((8 - w_orig `mod` 8) `mod` 8)%nat in
  ((λ row, row ++ replicate w_pad (0, 0, 0)) <$> img)
  ++ replicate h_pad (replicate (w_orig + w_pad) (0, 0, 0)).

(** *** OpenCV glue: [cvtColor], [split], [merge] *)

Definition cvtColor (f : pixel → pixel) (img : image) : image :=
  map2d f img.

Definition split (img : image) : plane * plane * plane :=
  (map2d (λ p : pixel, p.1.1) img,
   map2d (λ p : pixel, p.1.2) img,
   map2d (λ p : pixel, p.2) img).

Definition merge (c0 c1 c2 : plane) : image :=
  zip_with (λ r0 r12, zip_with (λ a bc, (a, bc.1, bc.2)) r0 r12)
    c0 (zip_with zip c1 c2).

(** *** The quantiser and the carrier coefficient *)

Definition as_float64 (block : ndarray) : matrix float :=
  match block with
  | Float32 a => a
  | Int64 a => map2d of_int a
  end.

(** [np.round(block / self.quantization_table).astype(np.int32)] *)
Definition quantize (block : ndarray) : matrix Z :=
  zip_with (zip_with (λ c t, round_int32 (PrimFloat.div c (of_int t))))
    (as_float64 block) quantization_table.

(** [quantized_block * self.quantization_table] *)
Definition dequantize (quantized_block : matrix Z) : ndarray :=
  Int64 (zip_with (zip_with Z.mul) quantized_block quantization_table).

(** [quantized_block[2, 1]] *)
Definition carrier (quantized_block : matrix Z) : result Z :=
  row ← getitem quantized_block 2;
  getitem row 1.

(** [quantized_block[2, 1] = f(quantized_block[2, 1])] *)
Definition update_carrier (f : Z → Z) (quantized_block : matrix Z)
  : result (matrix Z) :=
  v ← carrier quantized_block;
  Return (alter (λ row, <[1%nat := f v]> row) 2%nat quantized_block).

(** The bit write: [&= ~1] for a 0, [|= 1] for anything else. *)
Definition write_bit (bit : Z) (quantized_block : matrix Z)
  : result (matrix Z) :=
  if bit =? 0
  then update_carrier (λ v, Z.land v (Z.lnot 1)) quantized_block
  else update_carrier (λ v, Z.lor v 1) quantized_block.

(** The bit read: [quantized_block[2, 1] & 1]. *)
Definition read_bit (quantized_block : matrix Z) : result Z :=
  v ← carrier quantized_block;
  Return (Z.land v 1).

(** *** [hide_message] *)

Definition capacity_error_message (image_capacity_bytes message_byte_count : Z)
  : str :=
  lit "Message is too large for this image." ++ [10; 10]
  ++ lit "  Image Capacity:      " ++ str_of_int image_capacity_bytes
  ++ lit " bytes" ++ [10]
  ++ lit "  Your Message's Size: " ++ str_of_int message_byte_count
  ++ lit " bytes" ++ [10; 10]
  ++ lit "Note: Your message size is larger than its character count or maybe because you're using"
  ++ [10]
  ++ lit "special characters and emojis which take up more space(double check).".

(** One turn of the embedding loop, up to the value stored in
    [dct_blocks[i]]. *)
Definition embed_bit (full_binary_payload : str) (dct_blocks : list ndarray)
    (payload_index i : nat) : result ndarray :=
  block ← getitem dct_blocks i;
  let quantized_block := quantize block in
  c ← getitem full_binary_payload payload_index;
  bit ← int_of 10 [c];
  quantized_block' ← write_bit bit quantized_block;
  Return (dequantize quantized_block').

(** The embedding loop over [range(len(full_binary_payload))], threading
    the list it updates in place; the list is returned with the outcome. *)
Fixpoint embed_loop (full_binary_payload : str) (indices : list nat)
    (dct_blocks : list ndarray) (payload_index : nat)
  : list ndarray * result () :=
  match indices with
  | [] => (dct_blocks, Return ())
  | i :: indices' =>
      match embed_bit full_binary_payload dct_blocks payload_index i with
      | Return new_block =>
          embed_loop full_binary_payload indices'
            (<[i := new_block]> dct_blocks) (S payload_index)
      | Raise e => (dct_blocks, Raise e)
      end
  end.

(** [length_binary + binary_message] *)
Definition full_payload (binary_message : str) : str :=
  let message_bit_length := Z.of_nat (length binary_message) in
  let length_binary := format_0b LENGTH_HEADER_BITS message_bit_length in
  length_binary ++ binary_message.

(** [cv2.imwrite(path, img, ...)] as a statement, its value dropped as line
    104 drops it: the files afterwards, or [cv2.error]. *)
Definition cv2_imwrite (E : externals) (fs : gmap str image) (path : str)
    (img : image) : result (gmap str image) :=
  match imwrite E path img with
  | Stored decoded => Return (<[path := decoded]> fs)
  | NotStored => Return fs
  | NoEncoder => Raise CvError
  end.

(** The body of [hide_message].  The first component is the value of the
    local list [dct_blocks] when the call ends, by return or by raise
    ([None] before line 68 has run); the second is the outcome. *)
Definition hide_message_run (E : externals) (w0 : world)
    (image_path message output_path : str)
  : option (list ndarray) * result world :=
  match files w0 !! image_path with
  | None => (None, Raise (FileNotFoundError (lit "Image not found.")))
  | Some img =>
      let '(h_orig, w_orig) := shape img in
      let padded_img := _pad_image img in
      let ycbcr_img := cvtColor (cvt_BGR2YCrCb E) padded_img in
      let '(y_channel, cr_channel, cb_channel) := split ycbcr_img in
      match _message_to_binary message with
      | Raise e => (None, Raise e)
      | Return binary_message =>
          let full_binary_payload := full_payload binary_message in
          let '(dct_blocks, h, w) := _apply_dct E y_channel in
          if (length dct_blocks <? length full_binary_payload)%nat then
            match utf8_encode message with
            | Raise e => (Some dct_blocks, Raise e)
            | Return message_bytes =>
                let message_byte_count := Z.of_nat (length message_bytes) in
                let image_capacity_bytes :=
                  (Z.of_nat (length dct_blocks) - Z.of_nat LENGTH_HEADER_BITS) / 8 in
                (Some dct_blocks,
                 Raise (ValueError (capacity_error_message
                                      image_capacity_bytes message_byte_count)))
            end
          else
            match embed_loop full_binary_payload
                    (seq 0 (length full_binary_payload)) dct_blocks 0 with
            | (dct_blocks', Raise e) => (Some dct_blocks', Raise e)
            | (dct_blocks', Return _) =>
                (Some dct_blocks',
                 reconstructed_y ← _apply_idct E dct_blocks' h w;
                 let reconstructed_y :=
                   map2d (λ x, astype_uint8 (clip_0_255 x)) reconstructed_y in
                 let stego_img_ycbcr := merge reconstructed_y cr_channel cb_channel in
                 let stego_img_bgr := cvtColor (cvt_YCrCb2BGR E) stego_img_ycbcr in
                 let stego_img_bgr := take w_orig <$> take h_orig stego_img_bgr in
                 fs ← cv2_imwrite E (files w0) output_path stego_img_bgr;
                 Return {| files := fs;
                           stdout := stdout w0
                                     ++ [[10] ++ lit "SUCCESS: Message successfully hidden in '"
                                         ++ output_path ++ lit "'"] |})
            end
      end
  end.

Definition hide_message (E : externals) (w0 : world)
    (image_path message output_path : str) : result world :=
  (hide_message_run E w0 image_path message output_path).2.

(** *** [reveal_message] *)

(** The two reading loops: [count] blocks from [start], one character
    [str(quantized_block[2, 1] & 1)] each. *)
Fixpoint read_bits (dct_blocks : list ndarray) (indices : list nat) (acc : str)
  : result str :=
  match indices with
  | [] => Return acc
  | block_index :: indices' =>
      block ← getitem dct_blocks block_index;
      let quantized_block := quantize block in
      bit ← read_bit quantized_block;
      read_bits dct_blocks indices' (acc ++ str_of_int bit)
  end.

Definition reveal_message (E : externals) (w0 : world) (image_path : str)
  : result (option str) :=
  match files w0 !! image_path with
  | None => Raise (FileNotFoundError (lit "Stego image not found."))
  | Some stego_img =>
      let padded_img := _pad_image stego_img in
      let ycbcr_img := cvtColor (cvt_BGR2YCrCb E) padded_img in
      let '(y_channel, _, _) := split ycbcr_img in
      let '(dct_blocks, _, _) := _apply_dct E y_channel in
      if (length dct_blocks <? LENGTH_HEADER_BITS)%nat then Return None
      else
        length_binary ← read_bits dct_blocks (seq 0 LENGTH_HEADER_BITS) [];
        match int_of 2 length_binary with
        | Raise (ValueError _) => Return None
        | Raise e => Raise e
        | Return message_length =>
            if Z.of_nat (length dct_blocks) - Z.of_nat LENGTH_HEADER_BITS
               <? message_length
            then Return None
            else
              binary_message ←
                read_bits dct_blocks
                  ((λ i, (LENGTH_HEADER_BITS + i)%nat)
                     <$> seq 0 (Z.to_nat message_length)) [];
              _binary_to_message binary_message
        end
  end.

End DCTSteganography.

(** ** A reference behaviour of the collaborators

    One environment, used to run the drivers on concrete images: OpenCV's
    8-bit fixed-point colour conversion (14-bit coefficients, rounding
    descale, saturation), the eight-point orthonormal DCT-II / DCT-III
    evaluated directly in binary64, and a writer that has the PNG encoder
    only.  Rows that are not eight samples long are returned as they are;
    the program never transforms such a row.

    The transforms are not SciPy's code, which works in single precision
    for [float32] input: their values differ from SciPy's in the last
    bits, so a sample that lies that close to an integer can be truncated
    to the neighbouring [uint8] value, and a quotient that close to a tie
    can be rounded the other way.  Only the evaluations at concrete
    images use this module; every theorem stated for an arbitrary [E]
    holds for SciPy's transforms as for these. *)

Module Reference.
Import Py Np DCTSteganography.

Definition saturate_uint8 (x : Z) : Z := Z.max 0 (Z.min 255 x).

(** [CV_DESCALE(x, 14)] *)
Definition descale14 (x : Z) : Z := (x + 2 ^ 13) ≫ 14.

Definition bgr2ycrcb (p : pixel) : pixel :=
  let '(b, g, r) := p in
  let y := descale14 (b * 1868 + g * 9617 + r * 4899) in
  let cr := descale14 ((r - y) * 11682 + 128 * 2 ^ 14) in
  let cb := descale14 ((b - y) * 9241 + 128 * 2 ^ 14) in
  (saturate_uint8 y, saturate_uint8 cr, saturate_uint8 cb).

Definition ycrcb2bgr (p : pixel) : pixel :=
  let '(y, cr, cb) := p in
  let b := y + descale14 ((cb - 128) * 29049) in
  let g := y + descale14 ((cb - 128) * (-5636) + (cr - 128) * (-11698)) in
  let r := y + descale14 ((cr - 128) * 22987) in
  (saturate_uint8 b, saturate_uint8 g, saturate_uint8 r).

(** [cos(j * pi / 16) / 2] for [j] in [0, 8]. *)
Definition half_cos_table : list float :=
  [ 0x1.0000000000000p-1; 0x1.f6297cff75cb0p-2; 0x1.d906bcf328d46p-2;
    0x1.a9b66290ea1a3p-2; 0x1.6a09e667f3bcdp-2; 0x1.1c73b39ae68c9p-2;
    0x1.87de2a6aea964p-3; 0x1.8f8b83c69a60dp-4; 0 ]%float.

(** [cos(m * pi / 16) / 2] for any [m], by the symmetries of the cosine. *)
Definition half_cos (m : nat) : float :=
  let m := (m `mod` 32)%nat in
  let m := if (16 <? m)%nat then (32 - m)%nat else m in
  if (m <=? 8)%nat then nth m half_cos_table 0%float
  else PrimFloat.opp (nth (16 - m) half_cos_table 0%float).

(** The orthonormal DCT-II matrix: entry [(k, n)]. *)
Definition basis (k n : nat) : float :=
  match k with
  | O => 0x1.6a09e667f3bccp-2%float
  | _ => half_cos ((2 * n + 1) * k)
  end.

Definition dot (a b : list float) : float :=
  foldl PrimFloat.add 0%float (zip_with PrimFloat.mul a b).

Definition dct8 (v : list float) : list float :=
  if decide (length v = 8%nat)
  then (λ k, dot ((λ n, basis k n) <$> seq 0 8) v) <$> seq 0 8
  else v.

Definition idct8 (v : list float) : list float :=
  if decide (length v = 8%nat)
  then (λ n, dot ((λ k, basis k n) <$> seq 0 8) v) <$> seq 0 8
  else v.

(** The writer of the reference environment: a directory that can be
    written, and the PNG encoder only, chosen by the extension whatever
    its case.  PNG is lossless: the file decodes to the image. *)
Definition lower (c : Z) : Z := if (65 <=? c) && (c <=? 90) then c + 32 else c.

Definition png_path (path : str) : bool :=
  bool_decide (lower <$> drop (length path - 4) path = lit ".png").

Definition png_imwrite (path : str) (img : image) : write_outcome :=
  if png_path path then Stored img else NoEncoder.

Definition collaborators : externals :=
  {| cvt_BGR2YCrCb := bgr2ycrcb;
     cvt_YCrCb2BGR := ycrcb2bgr;
     dct_f32 := dct8;
     idct_f32 := idct8;
     idct_f64 := idct8;
     imwrite := png_imwrite |}.

(** A [side x side] cover of one grey level. *)
Definition flat_cover (side : nat) (level : Z) : image :=
  replicate side (replicate side (level, level, level)).

(** An [h x w] cover of one grey level. *)
Definition grey_cover (h w : nat) (level : Z) : image :=
  replicate h (replicate w (level, level, level)).

Definition world_with (path : str) (img : image) : world :=
  {| files := {[ path := img ]}; stdout := [] |}.

End Reference.

Import Py Np DCTSteganography Reference.

(** ** Notions used to state the properties *)

Definition is_bits (s : str) : Prop := Forall (λ c, c = 48 ∨ c = 49) s.

Definition bit_char (b : bool) : Z := if b then 49 else 48.

Definition msb_bits (width : nat) (n : Z) : str :=
  (λ i, bit_char (Z.testbit n (Z.of_nat (width - 1 - i)))) <$> seq 0 width.
Global Arguments msb_bits : simpl never.

(** A Unicode scalar value: a code point that is not a surrogate. *)
Definition scalar_value (c : Z) : Prop :=
  0 ≤ c < 0x110000 ∧ ¬ (0xD800 ≤ c ≤ 0xDFFF).

Definition is_byte (b : Z) : Prop := 0 ≤ b < 256.

(** An [h x w] array: [h] rows of [w] entries each. *)
Definition rect {A : Type} (h w : nat) (a : list (list A)) : Prop :=
  length a = h ∧ Forall (λ row, length row = w) a.

(** What [cv2.imread] returns when it returns an image: a non-empty raster. *)
Definition raster (h w : nat) (img : image) : Prop :=
  rect h w img ∧ (0 < h)%nat ∧ (0 < w)%nat.

(** [a[r, c]] *)
Definition entry {A : Type} (a : list (list A)) (r c : nat) : option A :=
  a !! r ≫= λ row, row !! c.

(** The smallest multiple of 8 that is at least [n]. *)
Definition round_up8 (n : nat) : nat := (8 * ((n + 7) / 8))%nat.
Global Arguments round_up8 : simpl never.

(** The number of 8x8 tiles of an [h x w] plane. *)
Definition tiles (h w : nat) : nat := (((h + 7) / 8) * ((w + 7) / 8))%nat.
Global Arguments tiles : simpl never.

(** An element of [dct_blocks] with eight rows of eight coefficients. *)
Definition block8 (b : ndarray) : Prop :=
  match b with
  | Float32 a => rect 8 8 a
  | Int64 a => rect 8 8 a
  end.

(** The value the bit write stores in the carrier. *)
Definition written (bit v : Z) : Z :=
  if bit =? 0 then Z.land v (Z.lnot 1) else Z.lor v 1.

(** A value of numpy's [int32]. *)
Definition is_int32 (v : Z) : Prop := - 2 ^ 31 ≤ v < 2 ^ 31.

(** The luma plane both drivers transform, and its block list. *)
Definition luma_plane (E : externals) (img : image) : plane :=
  (split (cvtColor (cvt_BGR2YCrCb E) (_pad_image img))).1.1.

Definition luma_blocks (E : externals) (img : image) : list ndarray :=
  (_apply_dct E (luma_plane E img)).1.1.

(** The chroma planes [hide_message] carries over untouched. *)
Definition chroma_planes (E : externals) (img : image) : plane * plane :=
  let s := split (cvtColor (cvt_BGR2YCrCb E) (_pad_image img)) in (s.1.2, s.2).

(** The last steps of [hide_message], from the modified block list to the
    raster handed to [cv2.imwrite]. *)
Definition stego_raster (E : externals) (img : image) (dct_blocks : list ndarray)
  : result image :=
  reconstructed_y ←
    _apply_idct E dct_blocks (shape (luma_plane E img)).1 (shape (luma_plane E img)).2;
  let reconstructed_y := map2d (λ x, astype_uint8 (clip_0_255 x)) reconstructed_y in
  let stego_img_ycbcr :=
    merge reconstructed_y (chroma_planes E img).1 (chroma_planes E img).2 in
  let stego_img_bgr := cvtColor (cvt_YCrCb2BGR E) stego_img_ycbcr in
  Return ((λ row, take (shape img).2 row) <$> take (shape img).1 stego_img_bgr).

Definition success_line (output_path : str) : str :=
  [10] ++ lit "SUCCESS: Message successfully hidden in '" ++ output_path ++ lit "'".

(** The character a block contributes: ['0'] or ['1'] by the parity of its
    quantised carrier. *)
Definition carried_char (block : ndarray) : option Z :=
  (λ v, 48 + Z.land v 1) <$> entry (quantize block) 2 1.

(** The byte spelled by the eight characters from position [8 * k]. *)
Definition byte_at (s : str) (k : nat) : Z :=
  default 0 (digits_value 2 0 (take 8 (drop (k * 8) s))).

Definition grouped_bytes (s : str) : list Z :=
  byte_at s <$> seq 0 (length s / 8).

(** The length [reveal_message] parses from the first 32 blocks. *)
Definition header_length (E : externals) (img : image) : result Z :=
  length_binary ← read_bits (luma_blocks E img) (seq 0 LENGTH_HEADER_BITS) [];
  int_of 2 length_binary.


Definition cover_png : str := lit "cover.png".
Definition stego_png : str := lit "stego.png".


(** Notions of the further properties. *)

(** The block stored for payload character [ch]: the quantised block with
    its carrier rewritten, dequantised. *)
Definition embedded_block (ch : Z) (block : ndarray) : option ndarray :=
  (λ v, dequantize
          (alter (λ row, <[1%nat := written (ch - 48) v]> row) 2%nat
             (quantize block)))
    <$> entry (quantize block) 2 1.

(** The tile an entry lies in. *)
Definition tile_of (r c : nat) : nat * nat := (8 * (r / 8), 8 * (c / 8))%nat.

(** ** Proofs *)

(** Linear arithmetic with division and remainder by constants. *)
Ltac dlia := zify; Z.to_euclidean_division_equations; lia.

(** *** Binary formatting and parsing *)

Lemma msb_bits_S width n :
  msb_bits (S width) n = msb_bits width (n / 2) ++ [bit_char (Z.odd n)].
Proof.
  unfold msb_bits. rewrite seq_S, fmap_app. cbn [fmap list_fmap].
  f_equal.
  - apply list_fmap_ext. intros i x Hx.
    apply lookup_seq in Hx as [-> Hlt]. cbn [Nat.add].
    replace (Z.of_nat (S width - 1 - i)) with (Z.succ (Z.of_nat (width - 1 - i))) by lia.
    rewrite <- Z.div2_div, Z.div2_spec, Z.shiftr_spec by lia.
    reflexivity.
  - replace (S width - 1 - (0 + width))%nat with 0%nat by lia.
    now rewrite Z.bit0_odd.
Qed.

Lemma msb_bits_length width n : length (msb_bits width n) = width.
Proof. unfold msb_bits. now rewrite length_fmap, length_seq. Qed.

Lemma msb_bits_zero width : msb_bits width 0 = replicate width 48.
Proof.
  induction width as [|width IH]; [reflexivity|].
  rewrite msb_bits_S. change (0 / 2) with 0. rewrite IH.
  cbn [Z.odd bit_char]. now rewrite replicate_S_end.
Qed.

Lemma msb_bits_is_bits width n : is_bits (msb_bits width n).
Proof.
  unfold is_bits, msb_bits. apply Forall_fmap, Forall_forall.
  intros i _. cbn. destruct (Z.testbit _ _); cbn; auto.
Qed.

Lemma bin_pos_fits p : ∀ width : nat,
  Zpos p < 2 ^ Z.of_nat width → (length (bin_pos p) ≤ width)%nat.
Proof.
  induction p as [p IH|p IH|]; intros [|width] H; cbn [bin_pos];
    rewrite ?length_app; cbn [length];
    try (cbn in H; lia);
    rewrite Nat2Z.inj_succ, Z.pow_succ_r in H by lia;
    try (specialize (IH width)); lia.
Qed.

Lemma bin_pos_padded p : ∀ width : nat,
  (length (bin_pos p) ≤ width)%nat →
  replicate (width - length (bin_pos p)) 48 ++ bin_pos p = msb_bits width (Zpos p).
Proof.
  induction p as [p IH|p IH|]; intros [|width] H; cbn [bin_pos] in *;
    rewrite ?length_app in *; cbn [length] in *; try lia.
  - rewrite msb_bits_S.
    rewrite <- Z.div2_div. cbn [Z.div2 Z.odd Pos.div2 bit_char].
    rewrite <- IH by lia. rewrite <- app_assoc. f_equal. f_equal. lia.
  - rewrite msb_bits_S.
    rewrite <- Z.div2_div. cbn [Z.div2 Z.odd Pos.div2 bit_char].
    rewrite <- IH by lia. rewrite <- app_assoc. f_equal. f_equal. lia.
  - rewrite msb_bits_S. change (1 / 2) with 0. rewrite msb_bits_zero.
    repeat f_equal. lia.
Qed.

Lemma format_0b_msb_bits (width : nat) n :
  0 ≤ n < 2 ^ Z.of_nat width → (0 < width)%nat →
  format_0b width n = msb_bits width n.
Proof.
  intros [H0 H1] Hw. unfold format_0b.
  destruct (Z.ltb_spec n 0); [lia|].
  destruct n as [|p|p]; [| |lia].
  - cbn [bin_digits length]. rewrite msb_bits_zero.
    replace width with (S (width - 1)) at 2 by lia.
    rewrite replicate_S_end. reflexivity.
  - cbn [bin_digits]. apply bin_pos_padded, bin_pos_fits, H1.
Qed.

Lemma digits_value_app base acc s1 s2 :
  digits_value base acc (s1 ++ s2)
  = digits_value base acc s1 ≫= λ a, digits_value base a s2.
Proof.
  revert acc. induction s1 as [|c s1 IH]; intros acc; cbn; [reflexivity|].
  destruct (digit_value base c); cbn; auto.
Qed.

Lemma digit_value_bit c : c = 48 ∨ c = 49 → digit_value 2 c = Some (c - 48).
Proof. intros [-> | ->]; reflexivity. Qed.

Lemma digits_value_bits s : ∀ acc,
  is_bits s →
  ∃ v, digits_value 2 acc s = Some (acc * 2 ^ Z.of_nat (length s) + v)
       ∧ 0 ≤ v < 2 ^ Z.of_nat (length s).
Proof.
  induction s as [|c s IH]; intros acc Hs.
  - exists 0. cbn. split; [f_equal; lia | lia].
  - apply Forall_cons in Hs as [Hc Hs].
    cbn [digits_value length]. rewrite Nat2Z.inj_succ, Z.pow_succ_r by lia.
    rewrite (digit_value_bit c Hc).
    destruct (IH (acc * 2 + (c - 48)) Hs) as (v & -> & Hv).
    exists ((c - 48) * 2 ^ Z.of_nat (length s) + v). split; [f_equal; lia|].
    destruct Hc as [-> | ->]; lia.
Qed.

Lemma int_of_bits s :
  is_bits s → s ≠ [] →
  ∃ v, int_of 2 s = Return v ∧ 0 ≤ v < 2 ^ Z.of_nat (length s).
Proof.
  intros Hs Hne. destruct (digits_value_bits s 0 Hs) as (v & Hv & Hb).
  exists v. unfold int_of. destruct s; [done|]. rewrite Hv. cbn. auto.
Qed.

Lemma digits_value_msb_bits width : ∀ n acc,
  0 ≤ n < 2 ^ Z.of_nat width →
  digits_value 2 acc (msb_bits width n) = Some (acc * 2 ^ Z.of_nat width + n).
Proof.
  induction width as [|width IH]; intros n acc Hn.
  - unfold msb_bits. cbn in *. f_equal. lia.
  - rewrite Nat2Z.inj_succ, Z.pow_succ_r in * by lia.
    rewrite msb_bits_S, digits_value_app, IH by dlia. cbn.
    pose proof (Z.div_mod n 2 ltac:(lia)) as Hdm. rewrite Zmod_odd in Hdm.
    destruct (Z.odd n); cbn; f_equal; lia.
Qed.

Lemma int_of_msb_bits width n :
  (0 < width)%nat → 0 ≤ n < 2 ^ Z.of_nat width →
  int_of 2 (msb_bits width n) = Return n.
Proof.
  intros Hw Hn. unfold int_of.
  rewrite digits_value_msb_bits by done.
  destruct (msb_bits width n) eqn:E.
  - apply (f_equal length) in E. rewrite msb_bits_length in E. cbn in E. lia.
  - f_equal; lia.
Qed.

(** *** UTF-8: the encoder in arithmetic form, the decoder on its output *)

Lemma lor_high_low h k x :
  0 ≤ k → 0 ≤ x < 2 ^ k → Z.lor (h * 2 ^ k) x = h * 2 ^ k + x.
Proof.
  intros Hk Hx.
  assert (Z.land (h * 2 ^ k) x = 0) as Hland.
  { apply Z.bits_inj'. intros n Hn. rewrite Z.land_spec, Z.bits_0.
    destruct (Z.lt_ge_cases n k).
    - now rewrite Z.mul_pow2_bits_low.
    - rewrite <- (Z.mod_small x (2 ^ k)) by lia.
      rewrite Z.mod_pow2_bits_high by lia. apply andb_false_r. }
  now rewrite <- Z.lxor_lor, Z.add_nocarry_lxor.
Qed.

Lemma lor_0x80 x : 0 ≤ x < 64 → Z.lor 0x80 x = 128 + x.
Proof. intros. apply (lor_high_low 2 6); lia. Qed.
Lemma lor_0xC0 x : 0 ≤ x < 64 → Z.lor 0xC0 x = 192 + x.
Proof. intros. apply (lor_high_low 3 6); lia. Qed.
Lemma lor_0xE0 x : 0 ≤ x < 32 → Z.lor 0xE0 x = 224 + x.
Proof. intros. apply (lor_high_low 7 5); lia. Qed.
Lemma lor_0xF0 x : 0 ≤ x < 16 → Z.lor 0xF0 x = 240 + x.
Proof. intros. apply (lor_high_low 15 4); lia. Qed.
Lemma land_0x3F x : Z.land x 0x3F = x mod 64.
Proof. apply (Z.land_ones x 6). lia. Qed.
Lemma shiftr_div x k : 0 ≤ k → x ≫ k = x / 2 ^ k.
Proof. apply Z.shiftr_div_pow2. Qed.
Lemma shiftl_mul x k : 0 ≤ k → x ≪ k = x * 2 ^ k.
Proof. apply Z.shiftl_mul_pow2. Qed.

(** The encoder in arithmetic form. *)
Lemma utf8_encode_char_arith c :
  scalar_value c →
  utf8_encode_char c =
    Some (if c <? 0x80 then [c]
          else if c <? 0x800 then [192 + c / 64; 128 + c mod 64]
          else if c <? 0x10000 then
            [224 + c / 4096; 128 + (c / 64) mod 64; 128 + c mod 64]
          else [240 + c / 262144; 128 + (c / 4096) mod 64;
                128 + (c / 64) mod 64; 128 + c mod 64]).
Proof.
  intros [Hc Hs]. unfold utf8_encode_char.
  rewrite !land_0x3F, !shiftr_div by lia.
  change (2 ^ 6) with 64. change (2 ^ 12) with 4096. change (2 ^ 18) with 262144.
  rewrite !lor_0x80 by dlia.
  destruct (Z.ltb_spec c 0); [lia|].
  destruct (Z.ltb_spec c 0x80); [done|].
  destruct (Z.ltb_spec c 0x800); [now rewrite lor_0xC0 by dlia|].
  destruct (Z.ltb_spec c 0x10000).
  - destruct (Z.leb_spec 0xD800 c), (Z.leb_spec c 0xDFFF); cbn [andb];
      try lia; now rewrite lor_0xE0 by dlia.
  - destruct (Z.ltb_spec c 0x110000); [|lia]. now rewrite lor_0xF0 by dlia.
Qed.

Lemma utf8_encode_char_bytes c bs :
  utf8_encode_char c = Some bs → Forall is_byte bs ∧ scalar_value c.
Proof.
  intros H.
  assert (scalar_value c) as Hc.
  { unfold utf8_encode_char, scalar_value in *.
    repeat match type of H with
           | context [?a <? ?b] => destruct (Z.ltb_spec a b)
           | context [?a <=? ?b] => destruct (Z.leb_spec a b)
           end; cbn [andb] in H; try discriminate; lia. }
  split; [|done].
  rewrite utf8_encode_char_arith in H by done. injection H as <-.
  destruct Hc as [Hc _]. unfold is_byte.
  repeat match goal with
         | |- context [?a <? ?b] => destruct (Z.ltb_spec a b)
         end; repeat constructor; dlia.
Qed.

Ltac decide_tests :=
  repeat match goal with
         | |- context [?a <? ?b] =>
             first [ rewrite (proj2 (Z.ltb_lt a b)) by dlia
                   | rewrite (proj2 (Z.ltb_ge a b)) by dlia ]
         | |- context [?a <=? ?b] =>
             first [ rewrite (proj2 (Z.leb_le a b)) by dlia
                   | rewrite (proj2 (Z.leb_gt a b)) by dlia ]
         | |- context [?a =? ?b] =>
             first [ rewrite (proj2 (Z.eqb_eq a b)) by dlia
                   | rewrite (proj2 (Z.eqb_neq a b)) by dlia ]
         end.

Ltac decode_consts :=
  unfold is_continuation;
  rewrite ?shiftl_mul by lia;
  change (Z.lor (0xC0 ≪ 6) 0x80) with 12416;
  change (Z.lor (Z.lor (0xE0 ≪ 12) (0x80 ≪ 6)) 0x80) with 925824;
  change (Z.lor (Z.lor (Z.lor (0xF0 ≪ 18) (0x80 ≪ 12)) (0x80 ≪ 6)) 0x80)
    with 63447168;
  change (2 ^ 6) with 64; change (2 ^ 12) with 4096;
  change (2 ^ 18) with 262144.

Ltac decode_step := decode_consts; decide_tests; cbn [andb negb orb].

Lemma utf8_decode_1 ch rest :
  0 ≤ ch < 0x80 →
  utf8_decode_ignore (ch :: rest) = ch :: utf8_decode_ignore rest.
Proof. intros. cbn [utf8_decode_ignore]. now decide_tests. Qed.

Lemma utf8_decode_2 ch ch2 rest :
  0xC2 ≤ ch < 0xE0 → 0x80 ≤ ch2 < 0xC0 →
  utf8_decode_ignore (ch :: ch2 :: rest)
  = (ch * 64 + ch2 - 12416) :: utf8_decode_ignore rest.
Proof.
  intros. remember (ch2 :: rest) as tail eqn:Htail.
  cbn [utf8_decode_ignore]. decode_step. subst tail. cbv beta match.
  now decode_step.
Qed.

Lemma utf8_decode_3 ch ch2 ch3 rest :
  0xE0 ≤ ch < 0xF0 → 0x80 ≤ ch2 < 0xC0 → 0x80 ≤ ch3 < 0xC0 →
  ¬ (ch = 0xE0 ∧ ch2 < 0xA0) → ¬ (ch = 0xED ∧ 0xA0 ≤ ch2) →
  utf8_decode_ignore (ch :: ch2 :: ch3 :: rest)
  = (ch * 4096 + ch2 * 64 + ch3 - 925824) :: utf8_decode_ignore rest.
Proof.
  intros. remember (ch3 :: rest) as tail2 eqn:Htail2.
  remember (ch2 :: tail2) as tail eqn:Htail.
  cbn [utf8_decode_ignore]. decode_step. subst tail. cbv beta match.
  decode_step.
  destruct (Z.ltb_spec ch2 160); decode_step; subst tail2; cbv beta match;
    now decode_step.
Qed.

Lemma utf8_decode_4 ch ch2 ch3 ch4 rest :
  0xF0 ≤ ch < 0xF5 → 0x80 ≤ ch2 < 0xC0 → 0x80 ≤ ch3 < 0xC0 →
  0x80 ≤ ch4 < 0xC0 →
  ¬ (ch = 0xF0 ∧ ch2 < 0x90) → ¬ (ch = 0xF4 ∧ 0x90 ≤ ch2) →
  utf8_decode_ignore (ch :: ch2 :: ch3 :: ch4 :: rest)
  = (ch * 262144 + ch2 * 4096 + ch3 * 64 + ch4 - 63447168)
      :: utf8_decode_ignore rest.
Proof.
  intros. remember (ch4 :: rest) as tail3 eqn:Htail3.
  remember (ch3 :: tail3) as tail2 eqn:Htail2.
  remember (ch2 :: tail2) as tail eqn:Htail.
  cbn [utf8_decode_ignore]. decode_step. subst tail. cbv beta match.
  decode_step.
  destruct (Z.ltb_spec ch2 144); decode_step; subst tail2; cbv beta match;
    decode_step; subst tail3; cbv beta match; now decode_step.
Qed.

Lemma utf8_decode_encode_char c bs rest :
  utf8_encode_char c = Some bs →
  utf8_decode_ignore (bs ++ rest) = c :: utf8_decode_ignore rest.
Proof.
  intros H. pose proof (utf8_encode_char_bytes _ _ H) as [_ Hc].
  rewrite utf8_encode_char_arith in H by done. injection H as <-.
  destruct Hc as [Hc Hs].
  destruct (Z.ltb_spec c 0x80);
    [|destruct (Z.ltb_spec c 0x800); [|destruct (Z.ltb_spec c 0x10000)]];
    cbn [app].
  - now rewrite utf8_decode_1 by lia.
  - rewrite utf8_decode_2 by dlia. f_equal. dlia.
  - rewrite utf8_decode_3 by dlia. f_equal. dlia.
  - rewrite utf8_decode_4 by dlia. f_equal. dlia.
Qed.

Lemma utf8_decode_encode_from s : ∀ position bs,
  utf8_encode_from position s = Return bs → utf8_decode_ignore bs = s.
Proof.
  induction s as [|c s IH]; intros position bs H; cbn in H.
  - now injection H as <-.
  - destruct (utf8_encode_char c) as [cb|] eqn:Hc; [|discriminate].
    destruct (utf8_encode_from (S position) s) as [tl|] eqn:Htl; [|discriminate].
    cbn in H. injection H as <-.
    rewrite (utf8_decode_encode_char _ _ _ Hc). f_equal. eauto.
Qed.

Lemma utf8_encode_from_bytes s : ∀ position bs,
  utf8_encode_from position s = Return bs → Forall is_byte bs ∧ Forall scalar_value s.
Proof.
  induction s as [|c s IH]; intros position bs H; cbn in H.
  - injection H as <-. split; constructor.
  - destruct (utf8_encode_char c) as [cb|] eqn:Hc; [|discriminate].
    destruct (utf8_encode_from (S position) s) as [tl|] eqn:Htl; [|discriminate].
    cbn in H. injection H as <-.
    destruct (utf8_encode_char_bytes _ _ Hc), (IH _ _ Htl).
    split; [now apply Forall_app | now constructor].
Qed.

Lemma utf8_encode_from_total s : ∀ position,
  Forall scalar_value s → ∃ bs, utf8_encode_from position s = Return bs.
Proof.
  induction s as [|c s IH]; intros position Hs; cbn; [eauto|].
  apply Forall_cons in Hs as [Hc Hs].
  rewrite utf8_encode_char_arith by done.
  destruct (IH (S position) Hs) as [tl ->]. cbn. eauto.
Qed.

(** *** Rectangular arrays *)

Section Shapes.
Context {A : Type}.
Implicit Types (a : list (list A)) (h w : nat).

Lemma rect_shape h w a : rect h w a → (0 < h)%nat → shape a = (h, w).
Proof.
  intros [Hh Hw] Hpos. unfold shape. destruct a as [|row a]; cbn in *; [lia|].
  apply Forall_cons in Hw as [-> _]. now subst.
Qed.

Lemma rect_row h w a r row : rect h w a → a !! r = Some row → length row = w.
Proof. intros [_ Hw] Hr. eapply (Forall_lookup_1 _ _ _ _ Hw Hr). Qed.

Lemma rect_entry_is_Some h w a r c :
  rect h w a → (r < h)%nat → (c < w)%nat → is_Some (entry a r c).
Proof.
  intros Ha Hr Hc. unfold entry.
  destruct (lookup_lt_is_Some_2 a r) as [row Hrow]; [destruct Ha; lia|].
  rewrite Hrow. cbn. apply lookup_lt_is_Some_2.
  now rewrite (rect_row _ _ _ _ _ Ha Hrow).
Qed.

Lemma rect_replicate h w (x : A) : rect h w (replicate h (replicate w x)).
Proof.
  split; [apply length_replicate|].
  apply Forall_replicate. apply length_replicate.
Qed.

Lemma rect_take_rows h w a n : rect h w a → rect (n `min` h) w (take n a).
Proof.
  intros [Hh Hw]. split; [rewrite length_take; lia | now apply Forall_take].
Qed.

Lemma rect_drop_rows h w a n : rect h w a → rect (h - n) w (drop n a).
Proof.
  intros [Hh Hw]. split; [rewrite length_drop; lia | now apply Forall_drop].
Qed.

Lemma rect_fmap_rows {B : Type} h w w' a (f : list A → list B) :
  rect h w a → (∀ row, length row = w → length (f row) = w') →
  rect h w' (f <$> a).
Proof.
  intros [Hh Hw] Hf. split; [now rewrite length_fmap|].
  apply Forall_fmap. eapply Forall_impl; [exact Hw|]. exact Hf.
Qed.

Lemma rect_map2d {B : Type} h w a (f : A → B) : rect h w a → rect h w (map2d f a).
Proof.
  intros Ha. unfold map2d. eapply rect_fmap_rows; [exact Ha|].
  intros row <-. apply length_fmap.
Qed.

Lemma rect_slice8 h w a i j :
  rect h w a → (i + 8 ≤ h)%nat → (j + 8 ≤ w)%nat → rect 8 8 (slice8 a i j).
Proof.
  intros Ha Hi Hj. unfold slice8.
  eapply rect_fmap_rows.
  - replace 8%nat with (8 `min` (h - i))%nat at 1 by lia.
    apply rect_take_rows, rect_drop_rows, Ha.
  - intros row Hrow. rewrite length_take, length_drop. lia.
Qed.

Lemma rect_transpose h w a (d : A) :
  rect h w a → (0 < h)%nat → rect w h (transpose d a).
Proof.
  intros Ha Hpos. unfold transpose. rewrite (rect_shape _ _ _ Ha Hpos). cbn.
  split; [now rewrite length_fmap, length_seq|].
  apply Forall_fmap, Forall_forall. intros j _. cbn.
  rewrite length_fmap. apply Ha.
Qed.

Lemma entry_map2d {B : Type} (f : A → B) a r c :
  entry (map2d f a) r c = f <$> entry a r c.
Proof.
  unfold entry, map2d. rewrite list_lookup_fmap.
  destruct (a !! r) as [row|]; cbn; [|done]. apply list_lookup_fmap.
Qed.
End Shapes.

(** *** Padding *)

Lemma pad_amount n : ((8 - n `mod` 8) `mod` 8 = round_up8 n - n)%nat.
Proof. unfold round_up8. dlia. Qed.

Lemma round_up8_spec n :
  (n ≤ round_up8 n < n + 8)%nat ∧ (round_up8 n `mod` 8 = 0)%nat.
Proof. unfold round_up8. dlia. Qed.

Lemma round_up8_least n m : (n ≤ m)%nat → (m `mod` 8 = 0)%nat → (round_up8 n ≤ m)%nat.
Proof. unfold round_up8. dlia. Qed.

Lemma round_up8_fixed n : (n `mod` 8 = 0)%nat → round_up8 n = n.
Proof. unfold round_up8. dlia. Qed.

Lemma pad_image_unfold h w (img : image) :
  raster h w img →
  _pad_image img
  = ((λ row, row ++ replicate (round_up8 w - w) (0, 0, 0)) <$> img)
    ++ replicate (round_up8 h - h) (replicate (round_up8 w) (0, 0, 0)).
Proof.
  intros (Himg & Hh & Hw). unfold _pad_image.
  rewrite (rect_shape _ _ _ Himg Hh). rewrite !pad_amount.
  repeat f_equal. pose proof (round_up8_spec w). lia.
Qed.

Lemma pad_image_rect h w (img : image) :
  raster h w img → rect (round_up8 h) (round_up8 w) (_pad_image img).
Proof.
  intros Hr. rewrite (pad_image_unfold h w) by done.
  destruct Hr as ([Hh Hw] & Hhp & Hwp).
  pose proof (round_up8_spec h). pose proof (round_up8_spec w).
  split.
  - rewrite length_app, length_fmap, length_replicate. lia.
  - apply Forall_app. split.
    + apply Forall_fmap. eapply Forall_impl; [exact Hw|]. 
      intros row Hrow. unfold compose. cbv beta in *. rewrite length_app, length_replicate. lia.
    + apply Forall_replicate, length_replicate.
Qed.

Lemma pad_image_raster h w (img : image) :
  raster h w img → raster (round_up8 h) (round_up8 w) (_pad_image img).
Proof.
  intros Hr. split; [now apply pad_image_rect|].
  destruct Hr as (_ & ? & ?).
  pose proof (round_up8_spec h). pose proof (round_up8_spec w). lia.
Qed.

Lemma pad_image_inside h w (img : image) r c :
  raster h w img → (r < h)%nat → (c < w)%nat →
  entry (_pad_image img) r c = entry img r c.
Proof.
  intros Hr Hrh Hcw. rewrite (pad_image_unfold h w) by done.
  destruct Hr as (Himg & _). unfold entry.
  rewrite lookup_app_l by (rewrite length_fmap; destruct Himg; lia).
  rewrite list_lookup_fmap.
  destruct (img !! r) as [row|] eqn:Hrow; cbn; [|done].
  apply lookup_app_l. now rewrite (rect_row _ _ _ _ _ Himg Hrow).
Qed.

Lemma pad_image_outside h w (img : image) r c :
  raster h w img → (r < round_up8 h)%nat → (c < round_up8 w)%nat →
  (h ≤ r ∨ w ≤ c)%nat →
  entry (_pad_image img) r c = Some (0, 0, 0).
Proof.
  intros Hr Hrh Hcw Hout. rewrite (pad_image_unfold h w) by done.
  destruct Hr as (Himg & _). unfold entry.
  destruct (Nat.lt_ge_cases r h) as [Hlt|Hge].
  - rewrite lookup_app_l by (rewrite length_fmap; destruct Himg; lia).
    rewrite list_lookup_fmap.
    destruct (lookup_lt_is_Some_2 img r) as [row Hrow]; [destruct Himg; lia|].
    rewrite Hrow. cbn. pose proof (rect_row _ _ _ _ _ Himg Hrow) as Hlen.
    rewrite lookup_app_r by lia. apply lookup_replicate_2. lia.
  - rewrite lookup_app_r by (rewrite length_fmap; destruct Himg; lia).
    rewrite length_fmap. rewrite lookup_replicate_2 by (destruct Himg; lia).
    cbn. now apply lookup_replicate_2.
Qed.

Lemma pad_image_aligned h w (img : image) :
  raster h w img → (h `mod` 8 = 0)%nat → (w `mod` 8 = 0)%nat →
  _pad_image img = img.
Proof.
  intros Hr Hh Hw. rewrite (pad_image_unfold h w) by done.
  rewrite !round_up8_fixed, !Nat.sub_diag by done. cbn.
  rewrite app_nil_r. rewrite <- (list_fmap_id img) at 2.
  apply list_fmap_ext. intros i row _. apply app_nil_r.
Qed.

(** *** Blocks and the traversal *)

Lemma rect_zip_with {A B C : Type} (f : A → B → C) h w
    (a : list (list A)) (b : list (list B)) :
  rect h w a → rect h w b → rect h w (zip_with (zip_with f) a b).
Proof.
  intros [Ha Hwa] [Hb Hwb]. split.
  - rewrite length_zip_with. lia.
  - apply Forall_lookup. intros i row Hrow.
    apply lookup_zip_with_Some in Hrow as (ra & rb & -> & Hra & Hrb).
    rewrite length_zip_with.
    rewrite (Forall_lookup_1 _ _ _ _ Hwa Hra), (Forall_lookup_1 _ _ _ _ Hwb Hrb).
    lia.
Qed.

Lemma quantization_table_rect : rect 8 8 quantization_table.
Proof. split; [reflexivity | repeat constructor]. Qed.

Lemma range_step_length n : length (range_step n 8) = ((n + 7) / 8)%nat.
Proof.
  unfold range_step. rewrite length_fmap, length_seq.
  f_equal. lia.
Qed.

Lemma range_step_aligned n i :
  (n `mod` 8 = 0)%nat → i ∈ range_step n 8 → (i + 8 ≤ n)%nat.
Proof.
  intros Hn Hi. unfold range_step in Hi.
  apply list_elem_of_fmap in Hi as (k & -> & Hk).
  apply elem_of_seq in Hk. dlia.
Qed.

Lemma bind_length_const {A B : Type} (f : A → list B) (k : nat) (l : list A) :
  (∀ x, length (f x) = k) → length (l ≫= f) = (length l * k)%nat.
Proof.
  intros Hf. induction l as [|x l IH]; [reflexivity|].
  rewrite bind_cons, length_app, Hf, IH. cbn [length]. lia.
Qed.

(** The nested traversal [for i in range(0, h, 8): for j in range(0, w, 8)]. *)
Lemma traversal_length {B : Type} (f : nat → nat → B) h w :
  length (i ← range_step h 8; j ← range_step w 8; [f i j]) = tiles h w.
Proof.
  rewrite (bind_length_const _ ((w + 7) / 8)%nat).
  - now rewrite range_step_length.
  - intros i. rewrite (bind_length_const _ 1%nat) by done.
    rewrite range_step_length. lia.
Qed.

Lemma traversal_Forall {B : Type} (P : B → Prop) (f : nat → nat → B) h w :
  (h `mod` 8 = 0)%nat → (w `mod` 8 = 0)%nat →
  (∀ i j, (i + 8 ≤ h)%nat → (j + 8 ≤ w)%nat → P (f i j)) →
  Forall P (i ← range_step h 8; j ← range_step w 8; [f i j]).
Proof.
  intros Hh Hw Hf. apply Forall_forall. intros x Hx.
  apply list_elem_of_bind in Hx as (i & Hx & Hi).
  apply list_elem_of_bind in Hx as (j & Hx & Hj).
  apply list_elem_of_singleton in Hx as ->.
  apply Hf; now apply range_step_aligned.
Qed.

Section Blocks.
Variable E : externals.
Hypothesis HE : shape_preserving E.

Lemma dct2_rect block : rect 8 8 block → rect 8 8 (dct2 E block).
Proof.
  intros Hb. unfold dct2, dct_rows. destruct HE as (Hd & _).
  eapply rect_fmap_rows; [|intros row <-; apply Hd].
  apply rect_transpose; [|lia].
  eapply rect_fmap_rows; [|intros row <-; apply Hd].
  apply rect_transpose; [exact Hb | lia].
Qed.

Lemma idct2_rect b : block8 b → rect 8 8 (idct2 E b).
Proof.
  destruct HE as (_ & Hf & Hd).
  intros Hb. destruct b as [a|a]; cbn [idct2 block8] in *.
  - eapply rect_fmap_rows; [|intros row <-; apply Hf].
    apply rect_transpose; [|lia].
    eapply rect_fmap_rows; [|intros row <-; apply Hf].
    apply rect_transpose; [exact Hb | lia].
  - eapply rect_fmap_rows; [|intros row <-; apply Hd].
    apply rect_transpose; [|lia].
    eapply rect_fmap_rows; [|intros row <-; apply Hd].
    apply rect_transpose; [|lia]. now apply rect_map2d.
Qed.

Lemma apply_dct_shape (y : plane) :
  (_apply_dct E y).1.2 = (shape y).1 ∧ (_apply_dct E y).2 = (shape y).2.
Proof. unfold _apply_dct. now destruct (shape y). Qed.

Lemma apply_dct_length (y : plane) :
  length (_apply_dct E y).1.1 = tiles (shape y).1 (shape y).2.
Proof.
  unfold _apply_dct. destruct (shape y) as [h w]. cbn [fst snd].
  apply (traversal_length (λ i j, Float32 (dct2 E (centred_block y i j)))).
Qed.

Lemma apply_dct_blocks8 h w (y : plane) :
  rect h w y → (0 < h)%nat → (h `mod` 8 = 0)%nat → (w `mod` 8 = 0)%nat →
  Forall block8 (_apply_dct E y).1.1.
Proof.
  intros Hy Hpos Hh Hw. unfold _apply_dct.
  rewrite (rect_shape _ _ _ Hy Hpos). cbn [fst snd].
  apply (traversal_Forall block8
           (λ i j, Float32 (dct2 E (centred_block y i j)))); [done..|].
  intros i j Hi Hj. cbn [block8]. apply dct2_rect.
  unfold centred_block. apply rect_map2d. now apply (rect_slice8 h w).
Qed.
End Blocks.

(** *** The quantiser and the carrier *)

Lemma as_float64_rect b : block8 b → rect 8 8 (as_float64 b).
Proof. destruct b; cbn; [done|]. apply rect_map2d. Qed.

Lemma quantize_rect b : block8 b → rect 8 8 (quantize b).
Proof.
  intros Hb. unfold quantize.
  apply rect_zip_with; [now apply as_float64_rect | apply quantization_table_rect].
Qed.

Lemma dequantize_block8 q : rect 8 8 q → block8 (dequantize q).
Proof.
  intros Hq. cbn. apply rect_zip_with; [done | apply quantization_table_rect].
Qed.

Lemma getitem_Return {A : Type} (l : list A) i x :
  getitem l i = Return x ↔ l !! i = Some x.
Proof. unfold getitem. destruct (l !! i); split; congruence. Qed.

Lemma getitem_lt {A : Type} (l : list A) i :
  (i < length l)%nat → ∃ x, getitem l i = Return x ∧ l !! i = Some x.
Proof.
  intros Hi. destruct (lookup_lt_is_Some_2 l i Hi) as [x Hx].
  exists x. split; [now apply getitem_Return | done].
Qed.

Lemma carrier_entry q v : carrier q = Return v ↔ entry q 2 1 = Some v.
Proof.
  unfold carrier, entry, getitem. destruct (q !! 2%nat) as [row|]; cbn; [|split; congruence].
  destruct (row !! 1%nat); split; congruence.
Qed.

Lemma carrier_rect q : rect 8 8 q → ∃ v, carrier q = Return v.
Proof.
  intros Hq. destruct (rect_entry_is_Some 8 8 q 2 1 Hq) as [v Hv]; [lia..|].
  exists v. now apply carrier_entry.
Qed.

(** *** Least significant bit, on two's-complement integers *)

Lemma land_1_mod v : Z.land v 1 = v mod 2.
Proof. apply (Z.land_ones v 1). lia. Qed.

Lemma clear_lsb v : Z.land v (Z.lnot 1) = 2 * (v / 2).
Proof.
  rewrite <- Z.ldiff_land. change 1 with (Z.ones 1).
  rewrite Z.ldiff_ones_r, Z.shiftr_div_pow2, Z.shiftl_mul_pow2 by lia.
  change (2 ^ 1) with 2. lia.
Qed.

Lemma set_lsb v : Z.lor v 1 = 2 * (v / 2) + 1.
Proof.
  apply Z.bits_inj'. intros n Hn. rewrite Z.lor_spec.
  destruct (Z.eq_dec n 0) as [-> | Hne].
  - rewrite Z.testbit_odd_0. apply orb_true_r.
  - replace n with (Z.succ (n - 1)) by lia.
    rewrite Z.testbit_odd_succ by lia.
    rewrite <- Z.div2_div, Z.div2_spec, Z.shiftr_spec by lia.
    replace (Z.testbit 1 (Z.succ (n - 1))) with false.
    + rewrite orb_false_r. f_equal; lia.
    + symmetry. apply (Z.bits_above_log2 1); cbn; lia.
Qed.

Lemma written_lsb bit v : bit = 0 ∨ bit = 1 → Z.land (written bit v) 1 = bit.
Proof.
  unfold written. intros [-> | ->]; cbn [Z.eqb]; rewrite land_1_mod.
  - rewrite clear_lsb. dlia.
  - rewrite set_lsb. dlia.
Qed.

Lemma written_int32 bit v :
  - 2 ^ 31 ≤ v < 2 ^ 31 → - 2 ^ 31 ≤ written bit v < 2 ^ 31.
Proof.
  unfold written. intros Hv. destruct (bit =? 0).
  - rewrite clear_lsb. dlia.
  - rewrite set_lsb. dlia.
Qed.

Lemma written_same_parity bit v :
  Z.land v 1 = bit → written bit v = v.
Proof.
  unfold written. rewrite land_1_mod. intros <-.
  destruct (Z.eqb_spec (v mod 2) 0).
  - rewrite clear_lsb. dlia.
  - rewrite set_lsb. dlia.
Qed.

(** *** The carrier update *)

Lemma entry_alter_carrier (q : list (list Z)) x r c :
  entry (alter (λ row, <[1%nat := x]> row) 2%nat q) r c
  = if decide (r = 2%nat ∧ c = 1%nat) then (λ _, x) <$> entry q 2 1 else entry q r c.
Proof.
  unfold entry. destruct (decide (r = 2%nat)) as [-> | Hr].
  - rewrite list_lookup_alter_eq. destruct (q !! 2%nat) as [row|]; cbn.
    + destruct (decide (c = 1%nat)) as [-> | Hc].
      * rewrite decide_True by done.
        destruct (row !! 1%nat) eqn:Hrow; cbn.
        -- apply list_lookup_insert_eq. now apply lookup_lt_Some in Hrow.
        -- apply lookup_ge_None. rewrite length_insert.
           now apply lookup_ge_None in Hrow.
      * rewrite decide_False by (intros []; done).
        now apply list_lookup_insert_ne.
    + now destruct (decide _).
  - rewrite list_lookup_alter_ne by done.
    now rewrite decide_False by (intros []; done).
Qed.

Lemma rect_alter_carrier (q : list (list Z)) x h w :
  rect h w q → rect h w (alter (λ row, <[1%nat := x]> row) 2%nat q).
Proof.
  intros [Hh Hw]. split; [now rewrite length_alter|].
  apply Forall_alter; [done|]. intros row _ Hrow. now rewrite length_insert.
Qed.

Lemma write_bit_written bit q v :
  carrier q = Return v →
  write_bit bit q
  = Return (alter (λ row, <[1%nat := written bit v]> row) 2%nat q).
Proof.
  intros Hv. unfold write_bit, update_carrier, written.
  destruct (bit =? 0); rewrite Hv; reflexivity.
Qed.

Lemma read_bit_carrier q v : carrier q = Return v → read_bit q = Return (Z.land v 1).
Proof. intros Hv. unfold read_bit. now rewrite Hv. Qed.

(** *** The embedding loop *)

Lemma int_of_10_bit c : c = 48 ∨ c = 49 → int_of 10 [c] = Return (c - 48).
Proof. intros [-> | ->]; reflexivity. Qed.

Lemma embed_bit_ok payload dct_blocks k i :
  Forall block8 dct_blocks → is_bits payload →
  (i < length dct_blocks)%nat → (k < length payload)%nat →
  ∃ block c v,
    dct_blocks !! i = Some block ∧ payload !! k = Some c
    ∧ carrier (quantize block) = Return v
    ∧ embed_bit payload dct_blocks k i
      = Return (dequantize
                  (alter (λ row, <[1%nat := written (c - 48) v]> row) 2%nat
                     (quantize block))).
Proof.
  intros Hblocks Hbits Hi Hk.
  destruct (getitem_lt dct_blocks i Hi) as (block & Hg & Hblock).
  destruct (getitem_lt payload k Hk) as (c & Hgc & Hc).
  pose proof (Forall_lookup_1 _ _ _ _ Hblocks Hblock) as Hb8.
  pose proof (Forall_lookup_1 _ _ _ _ Hbits Hc) as Hcbit.
  destruct (carrier_rect _ (quantize_rect _ Hb8)) as [v Hv].
  exists block, c, v. repeat split; try done.
  unfold embed_bit. rewrite Hg. cbn [mbind result_bind]. rewrite Hgc.
  cbn [mbind result_bind]. rewrite (int_of_10_bit c Hcbit).
  cbn [mbind result_bind]. now rewrite (write_bit_written _ _ _ Hv).
Qed.

Lemma embed_bit_block8 payload dct_blocks k i :
  Forall block8 dct_blocks → is_bits payload →
  (i < length dct_blocks)%nat → (k < length payload)%nat →
  ∃ new_block, embed_bit payload dct_blocks k i = Return new_block
               ∧ block8 new_block.
Proof.
  intros Hblocks Hbits Hi Hk.
  destruct (embed_bit_ok payload dct_blocks k i) as (block & c & v & Hb & _ & _ & ->);
    try done.
  eexists. split; [reflexivity|].
  apply dequantize_block8, rect_alter_carrier, quantize_rect.
  apply (Forall_lookup_1 _ _ _ _ Hblocks Hb).
Qed.

Lemma embed_loop_ok payload : ∀ indices dct_blocks k,
  Forall block8 dct_blocks → is_bits payload →
  Forall (λ i, (i < length dct_blocks)%nat) indices →
  (k + length indices ≤ length payload)%nat →
  ∃ dct_blocks',
    embed_loop payload indices dct_blocks k = (dct_blocks', Return ())
    ∧ Forall block8 dct_blocks'
    ∧ length dct_blocks' = length dct_blocks.
Proof.
  induction indices as [|i indices IH]; intros dct_blocks k Hb Hp Hi Hk.
  - exists dct_blocks. now cbn.
  - apply Forall_cons in Hi as [Hi His]. cbn [length] in Hk.
    destruct (embed_bit_block8 payload dct_blocks k i) as (nb & Hnb & Hnb8);
      [done | done | done | lia |].
    cbn [embed_loop]. rewrite Hnb.
    destruct (IH (<[i := nb]> dct_blocks) (S k)) as (bs & Hbs & Hbs8 & Hlen).
    + now apply Forall_insert.
    + done.
    + eapply Forall_impl; [exact His|]. intros j Hj. now rewrite length_insert.
    + lia.
    + exists bs. rewrite length_insert in Hlen. done.
Qed.

Ltac bind_simpl := cbn [mbind result_bind mret result_ret].

Lemma Return_inj {A : Type} (a b : A) : Return a = Return b → a = b.
Proof. intros H. now injection H. Qed.

(** *** Payload strings are bit strings *)

Lemma bin_pos_is_bits p : is_bits (bin_pos p).
Proof.
  unfold is_bits.
  induction p as [p IH|p IH|]; cbn [bin_pos].
  - apply Forall_app. split; [exact IH | apply Forall_singleton; auto].
  - apply Forall_app. split; [exact IH | apply Forall_singleton; auto].
  - apply Forall_singleton; auto.
Qed.

Lemma format_0b_is_bits width n : 0 ≤ n → is_bits (format_0b width n).
Proof.
  intros Hn. unfold format_0b. destruct (Z.ltb_spec n 0); [lia|].
  apply Forall_app. split; [apply Forall_replicate; auto|].
  destruct n; cbn [bin_digits]; [apply Forall_singleton; auto | apply bin_pos_is_bits | lia].
Qed.

Lemma concat_is_bits (ls : list str) : Forall is_bits ls → is_bits (concat ls).
Proof.
  induction 1; cbn; [constructor | now apply Forall_app].
Qed.

Lemma message_to_binary_inv message binary_message :
  _message_to_binary message = Return binary_message →
  ∃ message_bytes,
    utf8_encode message = Return message_bytes
    ∧ binary_message = concat (format_0b 8 <$> message_bytes)
    ∧ Forall is_byte message_bytes
    ∧ Forall scalar_value message.
Proof.
  unfold _message_to_binary. intros H.
  destruct (utf8_encode message) as [bs|] eqn:Hbs; [|discriminate].
  cbn in H. injection H as <-.
  destruct (utf8_encode_from_bytes _ _ _ Hbs). eauto.
Qed.

Lemma byte_bits b : is_byte b → format_0b 8 b = msb_bits 8 b.
Proof. intros Hb. apply format_0b_msb_bits; [exact Hb | lia]. Qed.

Lemma binary_message_is_bits message_bytes :
  Forall is_byte message_bytes → is_bits (concat (format_0b 8 <$> message_bytes)).
Proof.
  intros Hb. apply concat_is_bits, Forall_fmap.
  eapply Forall_impl; [exact Hb|]. intros b [H0 _]. now apply format_0b_is_bits.
Qed.

Lemma binary_message_length message_bytes :
  Forall is_byte message_bytes →
  length (concat (format_0b 8 <$> message_bytes)) = (8 * length message_bytes)%nat.
Proof.
  induction 1 as [|b bs Hb _ IH]; [reflexivity|].
  cbn [fmap list_fmap concat length]. rewrite length_app, IH.
  rewrite (byte_bits b Hb), msb_bits_length. lia.
Qed.

Lemma full_payload_is_bits binary_message :
  is_bits binary_message → is_bits (full_payload binary_message).
Proof.
  intros Hb. apply Forall_app. split; [|done]. apply format_0b_is_bits. lia.
Qed.

(** *** Shapes through the OpenCV glue *)

Lemma split_rect h w (img : image) :
  rect h w img →
  rect h w (split img).1.1 ∧ rect h w (split img).1.2 ∧ rect h w (split img).2.
Proof.
  intros Hi. unfold split. cbn [fst snd].
  split; [|split]; apply rect_map2d, Hi.
Qed.

Lemma merge_rect h w (c0 c1 c2 : plane) :
  rect h w c0 → rect h w c1 → rect h w c2 → rect h w (merge c0 c1 c2).
Proof.
  intros H0 H1 H2. unfold merge.
  apply (rect_zip_with (λ a bc, (a, bc.1, bc.2))); [done|].
  now apply (rect_zip_with pair).
Qed.

Lemma crop_rect {A : Type} h w h0 w0 (a : list (list A)) :
  rect h w a → (h0 ≤ h)%nat → (w0 ≤ w)%nat →
  rect h0 w0 ((λ row, take w0 row) <$> take h0 a).
Proof.
  intros Ha Hh Hw. eapply rect_fmap_rows.
  - replace h0 with (h0 `min` h)%nat at 1 by lia. apply rect_take_rows, Ha.
  - intros row Hrow. rewrite length_take. lia.
Qed.

Lemma tiles_round_up8 h w : tiles (round_up8 h) (round_up8 w) = tiles h w.
Proof. unfold tiles, round_up8. f_equal; dlia. Qed.

Section Luma.
Variable E : externals.
Hypothesis HE : shape_preserving E.
Variables (h w : nat) (img : image).
Hypothesis Himg : raster h w img.

Lemma luma_plane_rect : rect (round_up8 h) (round_up8 w) (luma_plane E img).
Proof.
  unfold luma_plane. apply split_rect. unfold cvtColor.
  apply rect_map2d, pad_image_rect, Himg.
Qed.

Lemma luma_plane_shape : shape (luma_plane E img) = (round_up8 h, round_up8 w).
Proof.
  apply rect_shape; [apply luma_plane_rect|].
  destruct Himg as (_ & ? & _). pose proof (round_up8_spec h). lia.
Qed.

Lemma luma_blocks_length : length (luma_blocks E img) = tiles h w.
Proof.
  unfold luma_blocks. rewrite apply_dct_length, luma_plane_shape.
  apply tiles_round_up8.
Qed.

Lemma luma_blocks_block8 : Forall block8 (luma_blocks E img).
Proof.
  unfold luma_blocks.
  apply (apply_dct_blocks8 E HE (round_up8 h) (round_up8 w));
    [apply luma_plane_rect | | apply round_up8_spec..].
  destruct Himg as (_ & ? & _). pose proof (round_up8_spec h). lia.
Qed.
End Luma.

(** *** The inverse transform *)

Lemma assign_slice8_ok {A : Type} h w (a b : list (list A)) i j :
  rect h w a → rect 8 8 b → (i + 8 ≤ h)%nat → (j + 8 ≤ w)%nat →
  ∃ a', assign_slice8 a i j b = Return a' ∧ rect h w a'.
Proof.
  intros Ha Hb Hi Hj. unfold assign_slice8.
  rewrite (rect_shape 8 8 b Hb) by lia.
  rewrite (rect_shape 8 8 _ (rect_slice8 h w a i j Ha Hi Hj)) by lia.
  rewrite decide_True by (split; [done | apply Hb]).
  eexists. split; [reflexivity|].
  destruct Ha as [Hh Hw], Hb as [Hbh Hbw]. split.
  - rewrite !length_app, length_zip_with, !length_take, !length_drop. lia.
  - apply Forall_app. split; [now apply Forall_take|].
    apply Forall_app. split; [|now apply Forall_drop].
    apply Forall_lookup. intros k row Hrow.
    apply lookup_zip_with_Some in Hrow as (ra & rb & -> & Hra & Hrb).
    apply lookup_take_Some in Hra as [Hra _].
    rewrite lookup_drop in Hra.
    pose proof (Forall_lookup_1 _ _ _ _ Hw Hra) as Hla.
    pose proof (Forall_lookup_1 _ _ _ _ Hbw Hrb) as Hlb. cbv beta in *.
    rewrite !length_app, length_take, length_drop. lia.
Qed.

Lemma idct_loop_ok E h w dct_blocks :
  shape_preserving E → Forall block8 dct_blocks →
  ∀ positions (reconstructed_image : list (list float)) block_index,
    rect h w reconstructed_image →
    Forall (λ p : nat * nat, (p.1 + 8 ≤ h)%nat ∧ (p.2 + 8 ≤ w)%nat) positions →
    (block_index + length positions ≤ length dct_blocks)%nat →
    ∃ r, idct_loop E dct_blocks positions reconstructed_image block_index = Return r
         ∧ rect h w r.
Proof.
  intros HE Hb. induction positions as [|[i j] positions IH];
    intros img k Himg Hpos Hk.
  - exists img. now cbn.
  - apply Forall_cons in Hpos as [[Hi Hj] Hpos]. cbn [length fst snd] in *.
    destruct (getitem_lt dct_blocks k) as (block & Hg & Hblock); [lia|].
    pose proof (Forall_lookup_1 _ _ _ _ Hb Hblock) as Hb8.
    destruct (assign_slice8_ok h w img (idct2 E block) i j) as (img' & Ha & Himg');
      [done | now apply idct2_rect | done | done |].
    cbn [idct_loop]. rewrite Hg. bind_simpl. rewrite Ha. bind_simpl.
    apply IH; [done | done | lia].
Qed.

Lemma apply_idct_ok E h w dct_blocks :
  shape_preserving E → Forall block8 dct_blocks →
  (h `mod` 8 = 0)%nat → (w `mod` 8 = 0)%nat →
  length dct_blocks = tiles h w →
  ∃ r, _apply_idct E dct_blocks h w = Return r ∧ rect h w r.
Proof.
  intros HE Hb Hh Hw Hlen. unfold _apply_idct.
  destruct (idct_loop_ok E h w dct_blocks HE Hb
              (i ← range_step h 8; j ← range_step w 8; [(i, j)])
              (replicate h (replicate w 0%float)) 0) as (r & -> & Hr).
  - apply rect_replicate.
  - apply (traversal_Forall _ (λ i j, (i, j))); [done..|]. cbn. auto.
  - rewrite (traversal_length (λ i j, (i, j))). lia.
  - bind_simpl. eexists. split; [reflexivity|]. now apply rect_map2d.
Qed.

Lemma hide_message_run_unfold E w0 image_path message output_path img binary_message :
  files w0 !! image_path = Some img →
  _message_to_binary message = Return binary_message →
  hide_message_run E w0 image_path message output_path
  = let dct_blocks := luma_blocks E img in
    let full_binary_payload := full_payload binary_message in
    if (length dct_blocks <? length full_binary_payload)%nat then
      match utf8_encode message with
      | Raise e => (Some dct_blocks, Raise e)
      | Return message_bytes =>
          (Some dct_blocks,
           Raise (ValueError
                    (capacity_error_message
                       ((Z.of_nat (length dct_blocks) - Z.of_nat LENGTH_HEADER_BITS) / 8)
                       (Z.of_nat (length message_bytes)))))
      end
    else
      match embed_loop full_binary_payload
              (seq 0 (length full_binary_payload)) dct_blocks 0 with
      | (dct_blocks', Raise e) => (Some dct_blocks', Raise e)
      | (dct_blocks', Return _) =>
          (Some dct_blocks',
           stego_img_bgr ← stego_raster E img dct_blocks';
           fs ← cv2_imwrite E (files w0) output_path stego_img_bgr;
           Return {| files := fs;
                     stdout := stdout w0 ++ [success_line output_path] |})
      end.
Proof.
  intros Hfile Hbm. unfold hide_message_run. rewrite Hfile, Hbm.
  unfold luma_blocks, stego_raster, chroma_planes, luma_plane, success_line.
  unfold split, _apply_dct. cbn [fst snd].
  destruct (shape img) as [h_orig w_orig].
  destruct (shape (map2d _ _)) as [hp wp]. cbn [fst snd].
  destruct (_ <? _)%nat; [reflexivity|].
  destruct (embed_loop _ _ _ _) as [blocks' [[]|e]]; [|reflexivity].
  f_equal. destruct (_apply_idct _ _ _ _); reflexivity.
Qed.

Lemma stego_raster_ok E h w img dct_blocks :
  shape_preserving E → raster h w img →
  Forall block8 dct_blocks → length dct_blocks = tiles h w →
  ∃ stego, stego_raster E img dct_blocks = Return stego ∧ raster h w stego.
Proof.
  intros HE Himg Hb Hlen. unfold stego_raster.
  rewrite (luma_plane_shape E h w img Himg). cbn [fst snd].
  pose proof (round_up8_spec h) as [Hh1 Hh2].
  pose proof (round_up8_spec w) as [Hw1 Hw2].
  destruct (apply_idct_ok E (round_up8 h) (round_up8 w) dct_blocks)
    as (r & -> & Hr); [done..| now rewrite tiles_round_up8 |].
  bind_simpl. eexists. split; [reflexivity|].
  destruct Himg as (Hrect & Hhpos & Hwpos).
  rewrite (rect_shape h w img Hrect Hhpos). cbn [fst snd].
  split; [|done].
  apply (crop_rect (round_up8 h) (round_up8 w)); [|lia..].
  unfold cvtColor. apply rect_map2d. unfold chroma_planes. cbn [fst snd].
  pose proof (split_rect (round_up8 h) (round_up8 w)
                (cvtColor (cvt_BGR2YCrCb E) (_pad_image img))) as Hs.
  destruct Hs as (_ & Hcr & Hcb).
  { unfold cvtColor. apply rect_map2d, pad_image_rect. done. }
  apply merge_rect; [now apply rect_map2d | done | done].
Qed.

(** *** What the two reading loops return *)

Lemma str_of_int_lsb v : str_of_int (Z.land v 1) = [48 + Z.land v 1].
Proof.
  rewrite land_1_mod.
  assert (v mod 2 = 0 ∨ v mod 2 = 1) as [-> | ->] by dlia; reflexivity.
Qed.

Lemma read_bits_cons dct_blocks i indices acc block c :
  dct_blocks !! i = Some block → carried_char block = Some c →
  read_bits dct_blocks (i :: indices) acc
  = read_bits dct_blocks indices (acc ++ [c]).
Proof.
  intros Hb Hc. cbn [read_bits].
  apply getitem_Return in Hb. rewrite Hb. bind_simpl.
  unfold carried_char in Hc.
  destruct (entry (quantize block) 2 1) as [v|] eqn:Hv; [|discriminate].
  injection Hc as <-. apply carrier_entry in Hv.
  rewrite (read_bit_carrier _ _ Hv). bind_simpl.
  now rewrite str_of_int_lsb.
Qed.

Lemma carried_char_block8 block :
  block8 block → ∃ c, carried_char block = Some c ∧ (c = 48 ∨ c = 49).
Proof.
  intros Hb. destruct (carrier_rect _ (quantize_rect _ Hb)) as [v Hv].
  apply carrier_entry in Hv. unfold carried_char. rewrite Hv.
  eexists. split; [reflexivity|]. rewrite land_1_mod. dlia.
Qed.

Lemma read_bits_ok dct_blocks :
  Forall block8 dct_blocks →
  ∀ indices acc,
    Forall (λ i, (i < length dct_blocks)%nat) indices →
    ∃ s, read_bits dct_blocks indices acc = Return (acc ++ s)
         ∧ is_bits s ∧ length s = length indices
         ∧ ∀ acc', read_bits dct_blocks indices acc' = Return (acc' ++ s).
Proof.
  intros Hb. induction indices as [|i indices IH]; intros acc Hi.
  - exists []. cbn. rewrite app_nil_r. repeat split; [constructor|].
    intros acc'. now rewrite app_nil_r.
  - apply Forall_cons in Hi as [Hi His].
    destruct (lookup_lt_is_Some_2 dct_blocks i Hi) as [block Hblock].
    destruct (carried_char_block8 block (Forall_lookup_1 _ _ _ _ Hb Hblock))
      as (c & Hc & Hcb).
    destruct (IH (acc ++ [c]) His) as (s & Hs & Hbits & Hlen & Hall).
    exists (c :: s). rewrite (read_bits_cons _ _ _ _ _ _ Hblock Hc), Hs.
    rewrite <- app_assoc. repeat split.
    + now constructor.
    + cbn. lia.
    + intros acc'. rewrite (read_bits_cons _ _ _ _ _ _ Hblock Hc), Hall.
      now rewrite <- app_assoc.
Qed.


(** *** Grouping bits into bytes *)

Lemma bits_msb_bits s :
  is_bits s →
  ∃ v, digits_value 2 0 s = Some v ∧ 0 ≤ v < 2 ^ Z.of_nat (length s)
       ∧ msb_bits (length s) v = s.
Proof.
  induction s as [|c s IH] using rev_ind; intros Hs.
  - exists 0. cbn. repeat split; lia.
  - unfold is_bits in Hs. apply Forall_app in Hs as [Hs Hc].
    rewrite Forall_singleton in Hc.
    destruct (IH Hs) as (v & Hv & Hvb & Hmsb).
    exists (v * 2 + (c - 48)).
    rewrite digits_value_app, Hv. cbn [mbind option_bind digits_value].
    rewrite (digit_value_bit c Hc).
    rewrite length_app. cbn [length].
    replace (length s + 1)%nat with (S (length s)) by lia.
    rewrite Nat2Z.inj_succ, Z.pow_succ_r by lia.
    split; [reflexivity|]. split; [destruct Hc as [-> | ->]; lia|].
    rewrite msb_bits_S.
    replace ((v * 2 + (c - 48)) / 2) with v by (destruct Hc as [-> | ->]; dlia).
    rewrite Hmsb. f_equal.
    destruct Hc as [-> | ->].
    + replace (v * 2 + (48 - 48)) with (2 * v) by lia.
      now rewrite Z.odd_even.
    + replace (v * 2 + (49 - 48)) with (2 * v + 1) by lia.
      now rewrite Z.odd_odd.
Qed.

Lemma byte_at_spec s k :
  is_bits s → (k * 8 + 8 ≤ length s)%nat →
  int_of 2 (take 8 (drop (k * 8) s)) = Return (byte_at s k)
  ∧ is_byte (byte_at s k)
  ∧ msb_bits 8 (byte_at s k) = take 8 (drop (k * 8) s).
Proof.
  intros Hs Hk.
  assert (length (take 8 (drop (k * 8) s)) = 8%nat) as Hlen
    by (rewrite length_take, length_drop; lia).
  destruct (bits_msb_bits (take 8 (drop (k * 8) s))) as (v & Hv & Hvb & Hmsb).
  { now apply Forall_take, Forall_drop. }
  rewrite Hlen in *. unfold byte_at, int_of. rewrite Hv. cbn [default].
  destruct (take 8 (drop (k * 8) s)) eqn:Eseg; [discriminate|].
  repeat split; try done; apply Hvb.
Qed.

Lemma group_bytes_seq s :
  is_bits s →
  ∀ n i0 acc,
    group_bytes s ((λ k, (k * 8)%nat) <$> seq i0 n) acc
    = Return (acc ++ (byte_at s <$> seq i0 (n `min` (length s / 8 - i0)))).
Proof.
  intros Hs. induction n as [|n IH]; intros i0 acc.
  - cbn. now rewrite app_nil_r.
  - cbn [seq fmap list_fmap group_bytes].
    assert (length (take 8 (drop (i0 * 8) s)) = (8 `min` (length s - i0 * 8))%nat)
      as Hlen by (now rewrite length_take, length_drop).
    destruct (Nat.ltb_spec (length (take 8 (drop (i0 * 8) s))) 8) as [Hlt|Hge].
    + replace (S n `min` (length s / 8 - i0))%nat with 0%nat by dlia.
      cbn. now rewrite app_nil_r.
    + destruct (byte_at_spec s i0 Hs) as (Hint & _ & _); [lia|].
      rewrite Hint. bind_simpl. rewrite IH.
      replace (S n `min` (length s / 8 - i0))%nat
        with (S (n `min` (length s / 8 - S i0)))%nat by dlia.
      cbn [seq fmap list_fmap]. now rewrite <- app_assoc.
Qed.

Lemma grouped_bytes_spec s :
  is_bits s →
  length (grouped_bytes s) = (length s / 8)%nat
  ∧ Forall is_byte (grouped_bytes s)
  ∧ concat (msb_bits 8 <$> grouped_bytes s) = take (8 * (length s / 8)) s.
Proof.
  intros Hs. unfold grouped_bytes.
  split; [now rewrite length_fmap, length_seq|].
  assert (∀ m, (m ≤ length s / 8)%nat →
               Forall is_byte (byte_at s <$> seq 0 m)
               ∧ concat (msb_bits 8 <$> (byte_at s <$> seq 0 m)) = take (8 * m) s)
    as Hall.
  { induction m as [|m IH]; intros Hm.
    - split; [constructor | reflexivity].
    - destruct IH as [IHb IHc]; [lia|].
      destruct (byte_at_spec s m Hs) as (_ & Hb & Hmsb); [dlia|].
      rewrite seq_S, !fmap_app. cbn [Nat.add fmap list_fmap].
      split; [apply Forall_app; split; [done | now apply Forall_singleton]|].
      rewrite concat_app, IHc. cbn [concat]. rewrite app_nil_r, Hmsb.
      replace (m * 8)%nat with (8 * m)%nat by lia.
      rewrite take_take_drop. f_equal. lia. }
  now apply Hall.
Qed.

Lemma to_bytes_is_byte values :
  Forall is_byte values → to_bytes values = Return values.
Proof.
  intros Hv. unfold to_bytes.
  replace (forallb _ values) with true; [reflexivity|].
  symmetry. apply forallb_forall. intros v Hin.
  apply list_elem_of_In in Hin.
  pose proof (proj1 (Forall_forall _ _) Hv v Hin) as [? ?].
  apply andb_true_iff. split; [now apply Z.leb_le | now apply Z.ltb_lt].
Qed.

Lemma binary_to_message_bits s :
  is_bits s →
  _binary_to_message s = Return (Some (utf8_decode_ignore (grouped_bytes s))).
Proof.
  intros Hs. unfold _binary_to_message, range_step.
  rewrite (group_bytes_seq s Hs). cbn [app]. bind_simpl.
  replace (((length s + 8 - 1) / 8) `min` (length s / 8 - 0))%nat
    with (length s / 8)%nat by dlia.
  fold (grouped_bytes s).
  rewrite to_bytes_is_byte by (now apply grouped_bytes_spec).
  reflexivity.
Qed.

Lemma msb_bytes_inj (bs1 bs2 : list Z) :
  Forall is_byte bs1 → Forall is_byte bs2 →
  concat (msb_bits 8 <$> bs1) = concat (msb_bits 8 <$> bs2) → bs1 = bs2.
Proof.
  intros H1. revert bs2. induction H1 as [|b1 bs1 Hb1 _ IH]; intros bs2 H2 Heq.
  - destruct H2 as [|b2 bs2 _ _]; [reflexivity|].
    apply (f_equal length) in Heq. cbn [fmap list_fmap concat] in Heq.
    rewrite length_app, msb_bits_length in Heq. cbn in Heq. lia.
  - destruct H2 as [|b2 bs2 Hb2 H2].
    + apply (f_equal length) in Heq. cbn [fmap list_fmap concat] in Heq.
      rewrite length_app, msb_bits_length in Heq. cbn in Heq. lia.
    + cbn [fmap list_fmap concat] in Heq.
      apply app_inj_1 in Heq as [Hb Hrest]; [|now rewrite !msb_bits_length].
      f_equal; [|now apply IH].
      apply (f_equal (int_of 2)) in Hb.
      rewrite !int_of_msb_bits in Hb by (done || lia). congruence.
Qed.

Lemma grouped_bytes_of_bytes message_bytes :
  Forall is_byte message_bytes →
  grouped_bytes (concat (format_0b 8 <$> message_bytes)) = message_bytes.
Proof.
  intros Hb.
  pose proof (binary_message_is_bits _ Hb) as Hbits.
  pose proof (binary_message_length _ Hb) as Hlen.
  destruct (grouped_bytes_spec _ Hbits) as (Hl & Hgb & Hc).
  apply msb_bytes_inj; [done..|].
  rewrite Hc, Hlen.
  replace (8 * (8 * length message_bytes / 8))%nat
    with (8 * length message_bytes)%nat by dlia.
  rewrite <- Hlen, firstn_all.
  clear -Hb. induction Hb as [|b bs Hb _ IH]; [reflexivity|].
  cbn [fmap list_fmap concat]. now rewrite IH, (byte_bits b Hb).
Qed.

(** *** [reveal_message], unfolded on a loaded image *)

Lemma reveal_message_unfold E w0 image_path img :
  files w0 !! image_path = Some img →
  reveal_message E w0 image_path
  = let dct_blocks := luma_blocks E img in
    if (length dct_blocks <? LENGTH_HEADER_BITS)%nat then Return None
    else
      length_binary ← read_bits dct_blocks (seq 0 LENGTH_HEADER_BITS) [];
      match int_of 2 length_binary with
      | Raise (ValueError _) => Return None
      | Raise e => Raise e
      | Return message_length =>
          if Z.of_nat (length dct_blocks) - Z.of_nat LENGTH_HEADER_BITS
             <? message_length
          then Return None
          else
            binary_message ←
              read_bits dct_blocks
                ((λ i, (LENGTH_HEADER_BITS + i)%nat)
                   <$> seq 0 (Z.to_nat message_length)) [];
            _binary_to_message binary_message
      end.
Proof.
  intros Hfile. unfold reveal_message. rewrite Hfile.
  unfold luma_blocks, luma_plane, split, _apply_dct. cbn [fst snd].
  now destruct (shape (map2d _ _)).
Qed.

Section Reveal.
Variable E : externals.
Hypothesis HE : shape_preserving E.
Variables (h w : nat) (img : image).
Hypothesis Himg : raster h w img.

Lemma header_parses :
  (32 ≤ tiles h w)%nat →
  ∃ length_binary L,
    read_bits (luma_blocks E img) (seq 0 LENGTH_HEADER_BITS) []
    = Return length_binary
    ∧ length length_binary = 32%nat ∧ is_bits length_binary
    ∧ int_of 2 length_binary = Return L ∧ 0 ≤ L < 2 ^ 32.
Proof.
  intros Hcap.
  destruct (read_bits_ok (luma_blocks E img) (luma_blocks_block8 E HE h w img Himg)
              (seq 0 LENGTH_HEADER_BITS) [])
    as (s & Hs & Hbits & Hlen & _).
  { apply Forall_forall. intros i Hi. apply elem_of_seq in Hi.
    rewrite (luma_blocks_length E h w img Himg). unfold LENGTH_HEADER_BITS in Hi. lia. }
  rewrite length_seq in Hlen.
  destruct (int_of_bits s Hbits) as (L & HL & HLb).
  { intros ->. discriminate. }
  exists s, L. rewrite Hlen in HLb. rewrite Hs.
  change (Z.of_nat LENGTH_HEADER_BITS) with 32 in HLb.
  split; [reflexivity|]. split; [exact Hlen|]. split; [exact Hbits|].
  split; [exact HL | exact HLb].
Qed.

Lemma body_reads L :
  0 ≤ L ≤ Z.of_nat (tiles h w) - 32 →
  ∃ binary_message,
    read_bits (luma_blocks E img)
      ((λ i, (LENGTH_HEADER_BITS + i)%nat) <$> seq 0 (Z.to_nat L)) []
    = Return binary_message
    ∧ is_bits binary_message ∧ length binary_message = Z.to_nat L.
Proof.
  intros HL.
  destruct (read_bits_ok (luma_blocks E img) (luma_blocks_block8 E HE h w img Himg)
              ((λ i, (LENGTH_HEADER_BITS + i)%nat) <$> seq 0 (Z.to_nat L)) [])
    as (s & Hs & Hbits & Hlen & _).
  { apply Forall_fmap, Forall_forall. intros i Hi. apply elem_of_seq in Hi.
    unfold compose. cbv beta. rewrite (luma_blocks_length E h w img Himg).
    unfold LENGTH_HEADER_BITS. lia. }
  rewrite length_fmap, length_seq in Hlen. exists s. rewrite Hs.
  split; [reflexivity|]. split; [exact Hbits | exact Hlen].
Qed.
End Reveal.

(** C7.  For every loadable stego image, [reveal_message] returns (it
    never raises), and its result is the no-message value [None] exactly
    when the padded image has fewer than 32 blocks or the length parsed
    from the first 32 blocks exceeds the number of blocks left after the
    header; a parsed length of zero yields the empty string, not [None]. *)
Theorem reveal_no_message_cases E w0 image_path img h w :
  shape_preserving E →
  files w0 !! image_path = Some img → raster h w img →
  length (luma_blocks E img) = tiles h w
  ∧ ∃ r, reveal_message E w0 image_path = Return r
      ∧ ((tiles h w < 32)%nat → r = None)
      ∧ ((32 ≤ tiles h w)%nat →
           ∃ L, header_length E img = Return L ∧ 0 ≤ L
             ∧ (r = None ↔ Z.of_nat (tiles h w) - 32 < L)
             ∧ (L = 0 → r = Some [])).
Proof.
  intros HE Hfile Himg.
  pose proof (luma_blocks_length E h w img Himg) as Hlen.
  split; [done|].
  rewrite (reveal_message_unfold E w0 image_path img Hfile). cbv zeta.
  rewrite Hlen. unfold header_length.
  destruct (Nat.ltb_spec (tiles h w) LENGTH_HEADER_BITS) as [Hlt|Hge];
    unfold LENGTH_HEADER_BITS in *.
  { exists None. split; [done|]. split; [done | lia]. }
  destruct (header_parses E HE h w img Himg Hge) as (s & L & Hs & _ & _ & HL & HLb).
  unfold LENGTH_HEADER_BITS in Hs.
  rewrite Hs. bind_simpl. rewrite HL.
  destruct (Z.ltb_spec (Z.of_nat (tiles h w) - Z.of_nat 32) L) as [Hbig|Hfit].
  { exists None. split; [done|]. split; [lia|]. intros _.
    exists L. repeat split; try done; lia. }
  destruct (body_reads E HE h w img Himg L) as (bm & Hbm & Hbits & Hbl); [lia|].
  unfold LENGTH_HEADER_BITS in Hbm. rewrite Hbm. bind_simpl.
  rewrite (binary_to_message_bits bm Hbits).
  eexists. split; [reflexivity|]. split; [lia|]. intros _.
  exists L. split; [done|]. split; [lia|]. split.
  - split; [discriminate | lia].
  - intros ->. destruct bm; [reflexivity | discriminate].
Qed.

(** C10.  For every image with at least 32 blocks the header string built
    by the first reading loop has 32 characters, all of them '0' or '1',
    and [int(length_binary, 2)] returns a value: the [except ValueError]
    branch of [reveal_message] is never taken, and the call continues with
    the length check. *)
Theorem header_always_parses E w0 image_path img h w :
  shape_preserving E →
  files w0 !! image_path = Some img → raster h w img →
  (32 ≤ tiles h w)%nat →
  ∃ length_binary message_length,
    read_bits (luma_blocks E img) (seq 0 LENGTH_HEADER_BITS) []
    = Return length_binary
    ∧ length length_binary = 32%nat
    ∧ is_bits length_binary
    ∧ int_of 2 length_binary = Return message_length
    ∧ reveal_message E w0 image_path
      = if Z.of_nat (tiles h w) - 32 <? message_length then Return None
        else
          binary_message ←
            read_bits (luma_blocks E img)
              ((λ i, (LENGTH_HEADER_BITS + i)%nat)
                 <$> seq 0 (Z.to_nat message_length)) [];
          _binary_to_message binary_message.
Proof.
  intros HE Hfile Himg Hcap.
  destruct (header_parses E HE h w img Himg Hcap) as (s & L & Hs & Hl & Hb & HL & _).
  exists s, L. repeat split; try done.
  rewrite (reveal_message_unfold E w0 image_path img Hfile). cbv zeta.
  rewrite (luma_blocks_length E h w img Himg).
  destruct (Nat.ltb_spec (tiles h w) LENGTH_HEADER_BITS) as [Hlt|Hge];
    [unfold LENGTH_HEADER_BITS in Hlt; lia|].
  rewrite Hs. bind_simpl. rewrite HL. reflexivity.
Qed.

(** *** The two outcomes of [hide_message] on a loaded cover *)

Lemma header_msb_bits n :
  0 ≤ n < 2 ^ 32 → format_0b LENGTH_HEADER_BITS n = msb_bits 32 n.
Proof.
  intros Hn. unfold LENGTH_HEADER_BITS.
  apply format_0b_msb_bits; [exact Hn | apply Nat.lt_0_succ].
Qed.


Lemma hide_message_too_large E w0 image_path message output_path img h w
    message_bytes :
  files w0 !! image_path = Some img → raster h w img →
  utf8_encode message = Return message_bytes →
  (tiles h w < length (full_payload (concat (format_0b 8 <$> message_bytes))))%nat →
  hide_message_run E w0 image_path message output_path
  = (Some (luma_blocks E img),
     Raise (ValueError
              (capacity_error_message
                 ((Z.of_nat (tiles h w) - 32) / 8)
                 (Z.of_nat (length message_bytes))))).
Proof.
  intros Hfile Himg Henc Hbig.
  assert (_message_to_binary message
          = Return (concat (format_0b 8 <$> message_bytes))) as Hbm.
  { unfold _message_to_binary. now rewrite Henc. }
  rewrite (hide_message_run_unfold E w0 image_path message output_path img _ Hfile Hbm).
  cbv zeta. rewrite (luma_blocks_length E h w img Himg).
  destruct (Nat.ltb_spec (tiles h w)
              (length (full_payload (concat (format_0b 8 <$> message_bytes)))))
    as [_|Hge]; [|exfalso; apply (Nat.lt_irrefl (tiles h w)); eapply Nat.lt_le_trans; eassumption].
  rewrite Henc. reflexivity.
Qed.

Lemma hide_message_fits E w0 image_path message output_path img h w
    message_bytes :
  shape_preserving E →
  files w0 !! image_path = Some img → raster h w img →
  utf8_encode message = Return message_bytes →
  (length (full_payload (concat (format_0b 8 <$> message_bytes))) ≤ tiles h w)%nat →
  ∃ dct_blocks' stego,
    embed_loop (full_payload (concat (format_0b 8 <$> message_bytes)))
      (seq 0 (length (full_payload (concat (format_0b 8 <$> message_bytes)))))
      (luma_blocks E img) 0
    = (dct_blocks', Return ())
    ∧ stego_raster E img dct_blocks' = Return stego
    ∧ raster h w stego
    ∧ hide_message_run E w0 image_path message output_path
      = (Some dct_blocks',
         fs ← cv2_imwrite E (files w0) output_path stego;
         Return {| files := fs;
                   stdout := stdout w0 ++ [success_line output_path] |}).
Proof.
  intros HE Hfile Himg Henc Hfit.
  assert (_message_to_binary message
          = Return (concat (format_0b 8 <$> message_bytes))) as Hbm.
  { unfold _message_to_binary. now rewrite Henc. }
  destruct (utf8_encode_from_bytes _ _ _ Henc) as [Hbytes _].
  rewrite (hide_message_run_unfold E w0 image_path message output_path img _ Hfile Hbm).
  cbv zeta. rewrite (luma_blocks_length E h w img Himg).
  set (payload := full_payload (concat (format_0b 8 <$> message_bytes))) in *.
  destruct (Nat.ltb_spec (tiles h w) (length payload)) as [Hlt|_];
    [exfalso; apply (Nat.lt_irrefl (tiles h w)); eapply Nat.lt_le_trans; eassumption|].
  destruct (embed_loop_ok payload (seq 0 (length payload)) (luma_blocks E img) 0%nat)
    as (blocks' & Hloop & Hb8 & Hlen).
  - now apply luma_blocks_block8 with (h := h) (w := w).
  - apply full_payload_is_bits, binary_message_is_bits, Hbytes.
  - apply Forall_forall. intros i Hi. apply elem_of_seq in Hi.
    rewrite (luma_blocks_length E h w img Himg). destruct Hi as [_ Hi].
    eapply Nat.lt_le_trans; [exact Hi | exact Hfit].
  - rewrite length_seq. apply Nat.le_refl.
  - rewrite (luma_blocks_length E h w img Himg) in Hlen.
    destruct (stego_raster_ok E h w img blocks' HE Himg Hb8 Hlen)
      as (stego & Hstego & Hst).
    exists blocks', stego. rewrite Hloop, Hstego.
    split; [reflexivity|]. split; [reflexivity|]. split; [exact Hst | reflexivity].
Qed.

(** Lines 104-105 by the outcome of the write: the success line is printed
    whenever [cv2.imwrite] does not raise. *)
Lemma write_then_print (E : externals) (fs : gmap str image) (path : str)
    (stego : image) (out : list str) :
  (fs' ← cv2_imwrite E fs path stego; Return {| files := fs'; stdout := out |})
  = match imwrite E path stego with
    | Stored decoded => Return {| files := <[path := decoded]> fs; stdout := out |}
    | NotStored => Return {| files := fs; stdout := out |}
    | NoEncoder => Raise CvError
    end.
Proof. unfold cv2_imwrite. destruct (imwrite E path stego); reflexivity. Qed.


(** C3.  The capacity error carries the message text of lines 78-84, with
    the image capacity printed as [(block_count - 32) // 8], floor division
    on unbounded integers (strictly negative, printed with a minus sign,
    when there are fewer than 32 blocks), and the message size printed as
    [len(message.encode('utf-8'))]. *)
Theorem capacity_error_reports E w0 image_path message output_path img h w
    message_bytes :
  files w0 !! image_path = Some img → raster h w img →
  utf8_encode message = Return message_bytes →
  (tiles h w < length (full_payload (concat (format_0b 8 <$> message_bytes))))%nat →
  let image_capacity_bytes := (Z.of_nat (tiles h w) - 32) / 8 in
  let message_byte_count := Z.of_nat (length message_bytes) in
  hide_message E w0 image_path message output_path
  = Raise (ValueError
             (lit "Message is too large for this image." ++ [10; 10]
              ++ lit "  Image Capacity:      " ++ str_of_int image_capacity_bytes
              ++ lit " bytes" ++ [10]
              ++ lit "  Your Message's Size: " ++ str_of_int message_byte_count
              ++ lit " bytes" ++ [10; 10]
              ++ lit "Note: Your message size is larger than its character count or maybe because you're using"
              ++ [10]
              ++ lit "special characters and emojis which take up more space(double check)."))
  ∧ 8 * image_capacity_bytes ≤ Z.of_nat (tiles h w) - 32 < 8 * image_capacity_bytes + 8
  ∧ ((tiles h w < 32)%nat →
     image_capacity_bytes < 0
     ∧ ∃ digits, str_of_int image_capacity_bytes = 45 :: digits).
Proof.
  intros Hfile Himg Henc Hlt capacity size.
  split; [|split].
  - unfold hide_message.
    now rewrite (hide_message_too_large E w0 image_path message output_path img h w
                   message_bytes Hfile Himg Henc Hlt).
  - unfold capacity. dlia.
  - intros Hsmall. assert (capacity < 0) as Hneg by (unfold capacity; dlia).
    split; [exact Hneg|]. destruct capacity as [|p|p]; [lia | lia |].
    eexists. reflexivity.
Qed.

(** C4.  For every message of fewer than 2^32 bits, the full payload is the
    32-character most-significant-bit-first binary representation of the
    bit length of the message's UTF-8 encoding, followed by each UTF-8 byte
    expanded to 8 bits most-significant-bit first, in byte order. *)
Theorem payload_layout message message_bytes :
  utf8_encode message = Return message_bytes →
  Z.of_nat (8 * length message_bytes) < 2 ^ 32 →
  ∃ binary_message,
    _message_to_binary message = Return binary_message
    ∧ binary_message = concat (msb_bits 8 <$> message_bytes)
    ∧ length binary_message = (8 * length message_bytes)%nat
    ∧ full_payload binary_message
      = msb_bits 32 (Z.of_nat (8 * length message_bytes))
        ++ concat (msb_bits 8 <$> message_bytes).
Proof.
  intros Henc Hn.
  destruct (utf8_encode_from_bytes _ _ _ Henc) as [Hbytes _].
  exists (concat (format_0b 8 <$> message_bytes)).
  assert (concat (format_0b 8 <$> message_bytes)
          = concat (msb_bits 8 <$> message_bytes)) as Hbody.
  { clear -Hbytes. induction Hbytes as [|b bs Hb _ IH]; [reflexivity|].
    cbn [fmap list_fmap concat]. now rewrite IH, (byte_bits b Hb). }
  split; [unfold _message_to_binary; now rewrite Henc|].
  split; [exact Hbody|].
  split; [now apply binary_message_length|].
  unfold full_payload. rewrite (binary_message_length _ Hbytes).
  rewrite header_msb_bits by (split; [apply Nat2Z.is_nonneg | exact Hn]).
  now rewrite Hbody.
Qed.

(** C5.  For every 8x8 quantised integer matrix and every bit [b], the bit
    write ([&= ~1] for 0, [|= 1] for 1, on two's-complement integers of
    either sign) returns a matrix whose entry (2,1) has least significant
    bit [b] and stays an [int32]; every other entry is unchanged; and the
    bit read recovers [b]. *)
Theorem write_bit_sets_parity_only (quantized_block : list (list Z)) (bit : Z) :
  rect 8 8 quantized_block → bit = 0 ∨ bit = 1 →
  ∃ v quantized_block',
    entry quantized_block 2 1 = Some v
    ∧ write_bit bit quantized_block = Return quantized_block'
    ∧ entry quantized_block' 2 1
      = Some (if bit =? 0 then Z.land v (Z.lnot 1) else Z.lor v 1)
    ∧ Z.land (if bit =? 0 then Z.land v (Z.lnot 1) else Z.lor v 1) 1 = bit
    ∧ read_bit quantized_block' = Return bit
    ∧ (∀ r c, ¬ (r = 2%nat ∧ c = 1%nat) →
              entry quantized_block' r c = entry quantized_block r c)
    ∧ rect 8 8 quantized_block'
    ∧ (- 2 ^ 31 ≤ v < 2 ^ 31 →
       - 2 ^ 31 ≤ (if bit =? 0 then Z.land v (Z.lnot 1) else Z.lor v 1) < 2 ^ 31).
Proof.
  intros Hq Hbit.
  destruct (carrier_rect quantized_block Hq) as [v Hv].
  pose proof (proj1 (carrier_entry _ _) Hv) as Hentry.
  exists v. eexists.
  split; [exact Hentry|].
  split; [apply (write_bit_written bit _ _ Hv)|].
  fold (written bit v).
  assert (entry (alter (λ row, <[1%nat := written bit v]> row) 2%nat quantized_block) 2 1
          = Some (written bit v)) as Hnew.
  { rewrite entry_alter_carrier, decide_True by done. now rewrite Hentry. }
  split; [exact Hnew|].
  split; [now apply written_lsb|].
  split.
  { rewrite (read_bit_carrier _ (written bit v)) by (now apply carrier_entry).
    now rewrite written_lsb. }
  split.
  { intros r c Hrc. rewrite entry_alter_carrier. now rewrite decide_False. }
  split; [now apply rect_alter_carrier | apply written_int32].
Qed.

(** C6.  For every string of '0'/'1' characters, of any length [n],
    [_binary_to_message] returns (never raises, never [None]) the lenient
    UTF-8 decoding of the bytes obtained by grouping the first
    [8 * floor(n / 8)] bits by eight, most significant bit first; a trailing
    group of fewer than eight bits is dropped. *)
Theorem binary_to_message_total (binary_message : str) :
  is_bits binary_message →
  ∃ message_bytes,
    _binary_to_message binary_message
    = Return (Some (utf8_decode_ignore message_bytes))
    ∧ length message_bytes = (length binary_message / 8)%nat
    ∧ Forall is_byte message_bytes
    ∧ concat (msb_bits 8 <$> message_bytes)
      = take (8 * (length binary_message / 8)) binary_message.
Proof.
  intros Hbits. exists (grouped_bytes binary_message).
  split; [now apply binary_to_message_bits|].
  now apply grouped_bytes_spec.
Qed.

(** C8.  For every [h x w] input, [_pad_image] returns an image whose
    dimensions are the smallest multiples of 8 that are at least [h] and
    [w], with the input samples in the top-left region and zeros everywhere
    else (so only below and to the right); an input whose dimensions are
    already multiples of 8 is returned unchanged; and whenever
    [hide_message] returns, the raster it handed to [cv2.imwrite] has the
    original [h x w] dimensions, not the padded ones (the file holds what
    the writer stored, and is absent when the writer stored nothing). *)
Theorem padding_and_crop (img : image) (h w : nat) :
  raster h w img →
  rect (round_up8 h) (round_up8 w) (_pad_image img)
  ∧ ((h ≤ round_up8 h < h + 8)%nat ∧ (round_up8 h `mod` 8 = 0)%nat)
  ∧ ((w ≤ round_up8 w < w + 8)%nat ∧ (round_up8 w `mod` 8 = 0)%nat)
  ∧ (∀ r c, (r < h)%nat → (c < w)%nat →
            entry (_pad_image img) r c = entry img r c)
  ∧ (∀ r c, (r < round_up8 h)%nat → (c < round_up8 w)%nat →
            (h ≤ r ∨ w ≤ c)%nat →
            entry (_pad_image img) r c = Some (0, 0, 0))
  ∧ ((h `mod` 8 = 0)%nat → (w `mod` 8 = 0)%nat → _pad_image img = img)
  ∧ (∀ E w0 w1 image_path message output_path,
       shape_preserving E →
       files w0 !! image_path = Some img →
       hide_message E w0 image_path message output_path = Return w1 →
       ∃ stego,
         rect h w stego
         ∧ (imwrite E output_path stego = NotStored ∧ files w1 = files w0
            ∨ ∃ decoded, imwrite E output_path stego = Stored decoded
                         ∧ files w1 = <[output_path := decoded]> (files w0))).
Proof.
  intros Himg.
  split; [now apply pad_image_rect|].
  split; [apply round_up8_spec|].
  split; [apply round_up8_spec|].
  split; [intros r c; now apply pad_image_inside|].
  split; [intros r c; now apply pad_image_outside|].
  split; [now apply pad_image_aligned|].
  intros E w0 w1 image_path message output_path HE Hfile Hret.
  unfold hide_message in Hret.
  destruct (utf8_encode message) as [message_bytes|e] eqn:Henc.
  - destruct (Nat.lt_ge_cases (tiles h w)
                (length (full_payload (concat (format_0b 8 <$> message_bytes)))))
      as [Hlt|Hge].
    + rewrite (hide_message_too_large E w0 image_path message output_path img h w
                 message_bytes Hfile Himg Henc Hlt) in Hret.
      discriminate Hret.
    + destruct (hide_message_fits E w0 image_path message output_path img h w
                  message_bytes HE Hfile Himg Henc Hge)
        as (bs & stego & _ & _ & Hst & Hrun).
      rewrite Hrun, write_then_print in Hret. cbn [snd] in Hret.
      exists stego. split; [apply Hst|].
      destruct (imwrite E output_path stego) as [decoded| |] eqn:Hwrite;
        [| |discriminate Hret]; apply Return_inj in Hret; subst w1.
      * right. exists decoded. split; reflexivity.
      * left. split; reflexivity.
  - unfold hide_message_run in Hret. rewrite Hfile in Hret.
    unfold _message_to_binary in Hret. rewrite Henc in Hret.
    destruct (shape img), (split _) as [[? ?] ?]. discriminate Hret.
Qed.

(** *** Rounding to the nearest integer *)

Lemma round_half_even_nearest m e :
  e < 0 →
  2 * Z.abs (round_half_even m e * 2 ^ (- e) - Zpos m) ≤ 2 ^ (- e).
Proof.
  intros He. unfold round_half_even.
  destruct (Z.leb_spec 0 e); [lia|].
  assert (0 < 2 ^ (- e)) as Hd by (apply Z.pow_pos_nonneg; lia).
  set (d := 2 ^ (- e)) in *.
  pose proof (Z.div_mod (Zpos m) d ltac:(lia)) as Hdm.
  pose proof (Z.mod_pos_bound (Zpos m) d Hd) as Hr.
  set (q := Zpos m / d) in *. set (r := Zpos m mod d) in *.
  destruct (Z.compare_spec (2 * r) d); [destruct (Z.even q)| |]; nia.
Qed.

Lemma Q_nearest (n m d : Z) :
  0 < d → 2 * Z.abs (n * d - m) ≤ d →
  (Qabs (inject_Z n - Qmake m (Z.to_pos d)) <= 1 # 2)%Q.
Proof.
  intros Hd Hn. unfold Qle, Qabs, Qminus, Qplus, Qopp, inject_Z.
  cbn [Qnum Qden]. rewrite Z2Pos.id by lia.
  rewrite Pos.mul_1_l, Z2Pos.id by lia.
  replace (n * d + - m * 1) with (n * d - m) by lia. lia.
Qed.

Lemma Q_exact (n : Z) : (Qabs (inject_Z n - inject_Z n) <= 1 # 2)%Q.
Proof.
  unfold Qle, Qabs, Qminus, Qplus, Qopp, inject_Z. cbn [Qnum Qden]. lia.
Qed.

Lemma sf_round_nearest (x : spec_float) (v : Q) :
  sf_value x = Some v →
  ∃ n, sf_round x = Some n ∧ (Qabs (inject_Z n - v) <= 1 # 2)%Q.
Proof.
  destruct x as [s|s| |s m e]; cbn [sf_value sf_round]; intros Hv;
    try discriminate; injection Hv as <-.
  - exists 0. split; [reflexivity|]. now vm_compute.
  - eexists. split; [reflexivity|].
    unfold round_half_even at 1 2.
    destruct (Z.leb_spec 0 e) as [Hpos|Hneg].
    + destruct s.
      * change (- inject_Z (Zpos m * 2 ^ e))%Q with (inject_Z (- (Zpos m * 2 ^ e))).
        apply Q_exact.
      * apply Q_exact.
    + pose proof (round_half_even_nearest m e Hneg) as Hn.
      unfold round_half_even in Hn.
      destruct (Z.leb_spec 0 e); [lia|].
      assert (0 < 2 ^ (- e)) as Hd by (apply Z.pow_pos_nonneg; lia).
      destruct s.
      * change (- Qmake (Zpos m) (Z.to_pos (2 ^ (- e))))%Q
          with (Qmake (- Zpos m) (Z.to_pos (2 ^ (- e)))).
        apply Q_nearest; [exact Hd|]. lia.
      * apply Q_nearest; [exact Hd|]. lia.
Qed.

Lemma astype_int32_in_range n :
  - 2 ^ 31 ≤ n < 2 ^ 31 → astype_int32 (Some n) = n.
Proof.
  intros [Hlo Hhi]. unfold astype_int32.
  rewrite (proj2 (Z.leb_le _ _) Hlo), (proj2 (Z.ltb_lt _ _) Hhi). reflexivity.
Qed.

Lemma entry_zip_with {A B C : Type} (f : A → B → C) (a : list (list A))
    (b : list (list B)) r c x y :
  entry a r c = Some x → entry b r c = Some y →
  entry (zip_with (zip_with f) a b) r c = Some (f x y).
Proof.
  unfold entry. intros Ha Hb. rewrite lookup_zip_with.
  destruct (a !! r) as [ra|]; [|discriminate].
  destruct (b !! r) as [rb|]; [|discriminate].
  cbn in *. rewrite lookup_zip_with, Ha, Hb. reflexivity.
Qed.

(** C9.  Quantisation is element-wise: entry [(r, c)] of the quantised
    block is [np.round(coefficient / table_entry)] cast to [int32], an
    integer within 1/2 of the binary64 quotient; dequantisation is
    element-wise [integer * table_entry]; and the embedding loop and the
    reading loop work on the same quantised matrix [quantize block] of a
    block. *)
Theorem quantization_is_rounded_division (block : ndarray) (r c : nat)
    (coefficient : float) (table_entry : Z) :
  entry (as_float64 block) r c = Some coefficient →
  entry quantization_table r c = Some table_entry →
  let quotient := PrimFloat.div coefficient (of_int table_entry) in
  entry (quantize block) r c = Some (round_int32 quotient)
  ∧ (∀ x, sf_value (Prim2SF quotient) = Some x →
       ∃ n, sf_round (Prim2SF quotient) = Some n
            ∧ (Qabs (inject_Z n - x) <= 1 # 2)%Q
            ∧ (- 2 ^ 31 ≤ n < 2 ^ 31 → round_int32 quotient = n))
  ∧ (∀ quantized_block v,
       entry quantized_block r c = Some v →
       ∃ a, dequantize quantized_block = Int64 a
            ∧ entry a r c = Some (v * table_entry))
  ∧ (∀ dct_blocks full_binary_payload payload_index i ch v,
       dct_blocks !! i = Some block →
       full_binary_payload !! payload_index = Some ch →
       ch = 48 ∨ ch = 49 →
       carrier (quantize block) = Return v →
       embed_bit full_binary_payload dct_blocks payload_index i
       = Return (dequantize
                   (alter (λ row, <[1%nat := written (ch - 48) v]> row) 2%nat
                      (quantize block)))
       ∧ read_bits dct_blocks [i] [] = Return [48 + Z.land v 1]).
Proof.
  intros Hc Ht quotient.
  split; [|split; [|split]].
  - unfold quantize.
    apply (entry_zip_with (λ c t, round_int32 (PrimFloat.div c (of_int t)))
             _ _ r c coefficient table_entry Hc Ht).
  - intros x Hx. destruct (sf_round_nearest _ _ Hx) as (n & Hn & Hnear).
    exists n. split; [exact Hn|]. split; [exact Hnear|].
    intros Hrange. unfold round_int32. rewrite Hn.
    now apply astype_int32_in_range.
  - intros q v Hv. eexists. split; [reflexivity|].
    apply (entry_zip_with Z.mul _ _ r c v table_entry Hv Ht).
  - intros dct_blocks payload k i ch v Hblock Hch Hbit Hv.
    split.
    + unfold embed_bit.
      rewrite (proj2 (getitem_Return _ _ _) Hblock). bind_simpl.
      rewrite (proj2 (getitem_Return _ _ _) Hch). bind_simpl.
      rewrite (int_of_10_bit ch Hbit). bind_simpl.
      now rewrite (write_bit_written _ _ _ Hv).
    + rewrite (read_bits_cons dct_blocks i [] [] block (48 + Z.land v 1) Hblock).
      * reflexivity.
      * unfold carried_char.
        now rewrite (proj1 (carrier_entry _ _) Hv).
Qed.

(** *** The protocol round trip *)




(** *** The reference collaborators and covers *)

Lemma collaborators_shape_preserving : shape_preserving collaborators.
Proof.
  unfold shape_preserving, collaborators, dct8, idct8. cbn [dct_f32 idct_f32 idct_f64].
  repeat split; intros v; destruct (decide (length v = 8%nat)) as [->|];
    try reflexivity; now rewrite length_fmap, length_seq.
Qed.

Lemma flat_cover_raster side level :
  (0 < side)%nat → raster side side (flat_cover side level).
Proof. intros Hs. split; [apply rect_replicate | split; exact Hs]. Qed.

Lemma world_with_lookup path img : files (world_with path img) !! path = Some img.
Proof. apply lookup_singleton_eq. Qed.

Lemma grey_cover_raster h w level :
  (0 < h)%nat → (0 < w)%nat → raster h w (grey_cover h w level).
Proof. intros Hh Hw. split; [apply rect_replicate | split; assumption]. Qed.

Lemma stego_png_stored img : imwrite collaborators stego_png img = Stored img.
Proof. reflexivity. Qed.

(** C1.  The round trip of the claim, [reveal_message] on the image that
    [hide_message] wrote returning the message, fails on covers the
    program accepts.  On an all-black 64x64 cover (64 blocks) the one-byte
    message "A" (40 payload bits) is hidden with the success line and
    revealed as the empty string: the three payload bits that are 1
    (blocks 28, 33 and 39) are read back as 0, so the header parses as
    length 0.  On a mid-grey 41x50 cover (padded to 48x56, 42 blocks) the
    same message is revealed as "@": bit 39 lies in a block of the last
    tile row, most of which is padding that the crop removes and
    [reveal_message] pads again with zeros.  Both payloads fit, and the
    capacity that line 77 computes is 4 bytes and 1 byte. *)
Theorem round_trip_fails :
  (hide_message collaborators (world_with cover_png (flat_cover 64 0))
     cover_png (lit "A") stego_png
   ≫= λ w1, reveal_message collaborators w1 stego_png)
  = Return (Some [])
  ∧ (hide_message collaborators (world_with cover_png (grey_cover 41 50 128))
       cover_png (lit "A") stego_png
     ≫= λ w1, reveal_message collaborators w1 stego_png)
    = Return (Some (lit "@"))
  ∧ utf8_encode (lit "A") = Return [65]
  ∧ (32 + 8 * 1 ≤ tiles 64 64)%nat
  ∧ (32 + 8 * 1 ≤ tiles 41 50)%nat
  ∧ (Z.of_nat (tiles 64 64) - 32) / 8 = 4
  ∧ (Z.of_nat (tiles 41 50) - 32) / 8 = 1.
Proof.
  split; [vm_compute; reflexivity|].
  split; [vm_compute; reflexivity|].
  split; [reflexivity|].
  split; [vm_compute; lia|].
  split; [vm_compute; lia|].
  split; reflexivity.
Qed.

(** How a bit is lost, on one block of the black cover.  The block
    quantises to carrier 0; writing a 1 stores 13 at (2,1).  The inverse
    transform gives samples within 2.95 of -128; after the offset, the clip
    to [0, 255] and the truncation to [uint8] the samples are 0, 1 or 2
    (the negative half of the pattern is gone); their forward transform has
    a (2,1) coefficient near 4.56, and round(4.56 / 13) is 0. *)
Example black_block_parity_lost :
  let block :=
    Float32 (dct2 collaborators (centred_block (replicate 8 (replicate 8 0)) 0 0)) in
  carried_char block = Some 48
  ∧ ∃ new_block,
      embed_bit [49] [block] 0 0 = Return new_block
      ∧ carried_char new_block = Some 49
      ∧ let samples :=
          map2d (λ x, astype_uint8 (clip_0_255 (PrimFloat.add x 128%float)))
            (idct2 collaborators new_block) in
        Forall (Forall (λ s, 0 ≤ s ≤ 2)) samples
        ∧ carried_char
            (Float32 (dct2 collaborators (centred_block samples 0 0)))
          = Some 48.
Proof.
  cbv zeta. split; [vm_compute; reflexivity|].
  eexists. split; [vm_compute; reflexivity|].
  split; [vm_compute; reflexivity|].
  split; [apply (bool_decide_unpack _); vm_compute; exact I
         | vm_compute; reflexivity].
Qed.


(** One block: the reported capacity is (1 - 32) // 8 = -4 bytes. *)
Lemma capacity_error_reports_witness :
  hide_message collaborators (world_with cover_png (flat_cover 8 0))
    cover_png (lit "A") stego_png
  = Raise (ValueError (capacity_error_message (-4) 1))
  ∧ str_of_int (-4) = lit "-4".
Proof.
  split; [|reflexivity].
  apply (proj1 (capacity_error_reports collaborators
                  (world_with cover_png (flat_cover 8 0)) cover_png (lit "A")
                  stego_png (flat_cover 8 0) 8 8 [65]
                  (world_with_lookup _ _) (flat_cover_raster 8 0 ltac:(lia))
                  eq_refl ltac:(vm_compute; lia))).
Defined.

(** The payload of "A": the 32-bit header of 8, then 01000001. *)
Lemma payload_layout_witness :
  ∃ binary_message,
    _message_to_binary (lit "A") = Return binary_message
    ∧ binary_message = concat (msb_bits 8 <$> [65])
    ∧ length binary_message = (8 * length [65])%nat
    ∧ full_payload binary_message
      = msb_bits 32 (Z.of_nat (8 * length [65]))
        ++ concat (msb_bits 8 <$> [65]).
Proof.
  apply (payload_layout (lit "A") [65]); [reflexivity | vm_compute; reflexivity].
Defined.

(** Clearing the low bit of -7 gives -8. *)
Lemma write_bit_witness :
  ∃ quantized_block',
    write_bit 0 (replicate 8 (replicate 8 (-7))) = Return quantized_block'
    ∧ entry quantized_block' 2 1 = Some (-8)
    ∧ read_bit quantized_block' = Return 0.
Proof.
  destruct (write_bit_sets_parity_only (replicate 8 (replicate 8 (-7))) 0
              (rect_replicate 8 8 (-7)) (or_introl eq_refl))
    as (v & q' & Hv & Hw & He & _ & Hr & _).
  exists q'. split; [exact Hw|]. split; [|exact Hr].
  vm_compute in Hv. apply (inj Some) in Hv. subst v. exact He.
Defined.

(** Ten bits: one byte and an incomplete group of two. *)
Lemma binary_to_message_witness :
  ∃ message_bytes,
    _binary_to_message (lit "0100000101")
    = Return (Some (utf8_decode_ignore message_bytes))
    ∧ length message_bytes = (length (lit "0100000101") / 8)%nat
    ∧ Forall is_byte message_bytes
    ∧ concat (msb_bits 8 <$> message_bytes)
      = take (8 * (length (lit "0100000101") / 8)) (lit "0100000101").
Proof.
  apply (binary_to_message_total (lit "0100000101")).
  apply (bool_decide_unpack _). vm_compute. exact I.
Defined.

(** One block is fewer than the header needs: no message. *)
Lemma reveal_no_message_witness :
  reveal_message collaborators (world_with cover_png (flat_cover 8 0)) cover_png
  = Return None.
Proof.
  destruct (reveal_no_message_cases collaborators
              (world_with cover_png (flat_cover 8 0)) cover_png (flat_cover 8 0) 8 8
              collaborators_shape_preserving (world_with_lookup _ _)
              (flat_cover_raster 8 0 ltac:(lia)))
    as (_ & r & Hr & Hsmall & _).
  rewrite Hr. f_equal. apply Hsmall. vm_compute. lia.
Defined.

(** A 41x50 image is padded to 48x56, and the image that hiding "A" in it
    leaves at "stego.png" is 41x50 again. *)
Lemma padding_witness :
  rect 48 56 (_pad_image (grey_cover 41 50 128))
  ∧ ∃ w1 stego,
      hide_message collaborators (world_with cover_png (grey_cover 41 50 128))
        cover_png (lit "A") stego_png = Return w1
      ∧ files w1 !! stego_png = Some stego
      ∧ rect 41 50 stego.
Proof.
  pose proof (padding_and_crop (grey_cover 41 50 128) 41 50
                (grey_cover_raster 41 50 128 ltac:(lia) ltac:(lia)))
    as (Hpad & _ & _ & _ & _ & _ & Hcrop).
  split; [exact Hpad|].
  destruct (hide_message_fits collaborators
              (world_with cover_png (grey_cover 41 50 128)) cover_png (lit "A")
              stego_png (grey_cover 41 50 128) 41 50 [65]
              collaborators_shape_preserving (world_with_lookup _ _)
              (grey_cover_raster 41 50 128 ltac:(lia) ltac:(lia)) eq_refl
              ltac:(vm_compute; lia)) as (blocks' & written_img & _ & _ & _ & Hrun).
  assert (∃ w1, hide_message collaborators
                  (world_with cover_png (grey_cover 41 50 128))
                  cover_png (lit "A") stego_png = Return w1) as [w1 Hret].
  { unfold hide_message. rewrite Hrun, write_then_print, stego_png_stored.
    eexists. reflexivity. }
  destruct (Hcrop collaborators _ w1 cover_png (lit "A") stego_png
              collaborators_shape_preserving (world_with_lookup _ _) Hret)
    as (stego & Hrect & [[Hnot _] | (decoded & Hstored & Hfiles)]).
  { rewrite stego_png_stored in Hnot. discriminate Hnot. }
  rewrite stego_png_stored in Hstored. injection Hstored as <-.
  exists w1, stego. split; [exact Hret|]. split; [|exact Hrect].
  rewrite Hfiles. apply lookup_insert_eq.
Defined.

(** 26 / 13 rounds to 2. *)
Lemma quantization_witness :
  entry (quantize (Float32 (replicate 8 (replicate 8 26%float)))) 2 1 = Some 2.
Proof.
  exact (proj1 (quantization_is_rounded_division
                  (Float32 (replicate 8 (replicate 8 26%float))) 2 1 26%float 13
                  eq_refl eq_refl)).
Defined.

(** The header of a 64-block image parses. *)
Lemma header_parses_witness :
  ∃ length_binary message_length,
    read_bits (luma_blocks collaborators (flat_cover 64 128))
      (seq 0 LENGTH_HEADER_BITS) [] = Return length_binary
    ∧ length length_binary = 32%nat
    ∧ is_bits length_binary
    ∧ int_of 2 length_binary = Return message_length.
Proof.
  destruct (header_always_parses collaborators
              (world_with cover_png (flat_cover 64 128)) cover_png
              (flat_cover 64 128) 64 64
              collaborators_shape_preserving (world_with_lookup _ _)
              (flat_cover_raster 64 128 ltac:(lia)) ltac:(vm_compute; lia))
    as (s & L & H1 & H2 & H3 & H4 & _).
  exists s, L. repeat split; assumption.
Defined.

(** ** Further properties of the code *)

(** *** The text codec on its own *)

Lemma grouped_bytes_app_tail s tail :
  (length s `mod` 8 = 0)%nat → (length tail < 8)%nat →
  grouped_bytes (s ++ tail) = grouped_bytes s.
Proof.
  intros Hs Ht. unfold grouped_bytes. rewrite length_app.
  replace ((length s + length tail) / 8)%nat with (length s / 8)%nat by dlia.
  apply list_fmap_ext. intros i k Hk. apply lookup_seq in Hk as [-> Hk].
  unfold byte_at. cbn [Nat.add]. do 2 f_equal.
  rewrite drop_app_le by dlia.
  rewrite take_app_le; [reflexivity|]. rewrite length_drop. dlia.
Qed.

(** X1.  For every message of Unicode scalar values [_message_to_binary]
    returns a string of '0' and '1' characters, and [_binary_to_message]
    applied to that string followed by up to seven more bit characters
    returns the message: an incomplete last group of bits is dropped. *)
Theorem text_codec_roundtrip (message tail : str) :
  Forall scalar_value message → is_bits tail → (length tail < 8)%nat →
  ∃ binary_message,
    _message_to_binary message = Return binary_message
    ∧ is_bits binary_message
    ∧ _binary_to_message (binary_message ++ tail) = Return (Some message).
Proof.
  intros Hm Ht Hlen.
  destruct (utf8_encode_from_total message 0%nat Hm) as [message_bytes Henc].
  destruct (utf8_encode_from_bytes _ _ _ Henc) as [Hbytes _].
  exists (concat (format_0b 8 <$> message_bytes)).
  pose proof (binary_message_is_bits _ Hbytes) as Hbits.
  split; [unfold _message_to_binary, utf8_encode; now rewrite Henc|].
  split; [exact Hbits|].
  rewrite binary_to_message_bits by (apply Forall_app; split; assumption).
  rewrite grouped_bytes_app_tail;
    [|rewrite (binary_message_length _ Hbytes); dlia | exact Hlen].
  rewrite (grouped_bytes_of_bytes _ Hbytes).
  now rewrite (utf8_decode_encode_from _ _ _ Henc).
Qed.

(** *** Messages that cannot be encoded *)




(** *** The length header *)

Lemma bin_pos_bounds p :
  2 ^ Z.of_nat (length (bin_pos p) - 1) ≤ Zpos p < 2 ^ Z.of_nat (length (bin_pos p)).
Proof.
  induction p as [p IH|p IH|]; cbn [bin_pos]; rewrite ?length_app; cbn [length].
  - assert (0 < length (bin_pos p))%nat by (destruct p; cbn; rewrite ?length_app; cbn; lia).
    replace (length (bin_pos p) + 1 - 1)%nat with (S (length (bin_pos p) - 1)) by lia.
    replace (length (bin_pos p) + 1)%nat with (S (length (bin_pos p))) by lia.
    rewrite !Nat2Z.inj_succ, !Z.pow_succ_r by lia. lia.
  - assert (0 < length (bin_pos p))%nat by (destruct p; cbn; rewrite ?length_app; cbn; lia).
    replace (length (bin_pos p) + 1 - 1)%nat with (S (length (bin_pos p) - 1)) by lia.
    replace (length (bin_pos p) + 1)%nat with (S (length (bin_pos p))) by lia.
    rewrite !Nat2Z.inj_succ, !Z.pow_succ_r by lia. lia.
  - cbn. lia.
Qed.

Lemma format_0b_nonneg width n :
  0 ≤ n →
  format_0b width n
  = msb_bits (width `max` length (bin_digits n)) n.
Proof.
  intros Hn. unfold format_0b. destruct (Z.ltb_spec n 0); [lia|].
  destruct n as [|p|p]; [| |lia].
  - cbn [bin_digits length]. rewrite msb_bits_zero.
    replace (width `max` 1)%nat with (S (width - 1)) by lia.
    now rewrite replicate_S_end.
  - cbn [bin_digits].
    rewrite <- (bin_pos_padded p (width `max` length (bin_pos p))) by lia.
    f_equal. f_equal. lia.
Qed.

(** X3.  The payload is the length header followed by the message
    bits.  The header is a bit string whose value in base 2 is the message
    length in bits; it has exactly 32 characters when that length is below
    2^32, and more than 32 otherwise. *)
Theorem length_header_roundtrip (binary_message : str) :
  ∃ length_binary,
    full_payload binary_message = length_binary ++ binary_message
    ∧ is_bits length_binary
    ∧ int_of 2 length_binary = Return (Z.of_nat (length binary_message))
    ∧ (Z.of_nat (length binary_message) < 2 ^ 32 → length length_binary = 32%nat)
    ∧ (2 ^ 32 ≤ Z.of_nat (length binary_message) → (32 < length length_binary)%nat).
Proof.
  set (n := Z.of_nat (length binary_message)).
  assert (0 ≤ n) as Hn by apply Nat2Z.is_nonneg.
  exists (format_0b LENGTH_HEADER_BITS n).
  split; [reflexivity|].
  split; [now apply format_0b_is_bits|].
  rewrite (format_0b_nonneg LENGTH_HEADER_BITS n Hn). unfold LENGTH_HEADER_BITS.
  rewrite msb_bits_length.
  assert (n < 2 ^ Z.of_nat (length (bin_digits n))
          ∧ (2 ^ 32 ≤ n → (32 < length (bin_digits n))%nat)) as [Hlt Hbig].
  { destruct n as [|p|p]; [split; [reflexivity|intros H; exfalso; revert H; apply Z.lt_nge; reflexivity] | | lia].
    cbn [bin_digits]. pose proof (bin_pos_bounds p) as [Hlo Hhi].
    split; [exact Hhi|]. intros Hbig.
    destruct (Nat.lt_ge_cases 32 (length (bin_pos p))) as [|Hle]; [assumption|].
    exfalso. apply (Z.lt_irrefl (Z.pos p)).
    eapply Z.lt_le_trans; [exact Hhi|].
    etransitivity; [|exact Hbig].
    apply Z.pow_le_mono_r; [reflexivity|].
    change 32 with (Z.of_nat 32). apply Nat2Z.inj_le, Hle. }
  split.
  { apply int_of_msb_bits.
    - apply Nat.lt_le_trans with 32%nat; [apply Nat.lt_0_succ | apply Nat.le_max_l].
    - split; [exact Hn|].
      eapply Z.lt_le_trans; [exact Hlt|].
      apply Z.pow_le_mono_r; [reflexivity|]. apply Nat2Z.inj_le, Nat.le_max_r. }
  split.
  - intros Hsmall. apply Nat.max_l.
    destruct n as [|p|p]; [cbn [bin_digits length]; lia | | lia].
    cbn [bin_digits]. apply bin_pos_fits. exact Hsmall.
  - intros Hbig'. apply Nat.lt_le_trans with (length (bin_digits n));
      [now apply Hbig | apply Nat.le_max_r].
Qed.

(** *** The capacity the error reports is the capacity the guard enforces *)


(** *** How [hide_message] ends when the payload fits *)


(** *** Missing files *)

(** X6.  With no image at the path, [hide_message] raises
    [FileNotFoundError] with the text of line 54 whatever the message is,
    and [reveal_message] raises it with the text of line 109. *)
Theorem missing_file_is_reported E w0 path message output_path :
  files w0 !! path = None →
  hide_message_run E w0 path message output_path
  = (None, Raise (FileNotFoundError (lit "Image not found.")))
  ∧ reveal_message E w0 path
    = Raise (FileNotFoundError (lit "Stego image not found.")).
Proof.
  intros Hnone. unfold hide_message_run, reveal_message.
  now rewrite Hnone.
Qed.

(** *** Padding twice *)

(** X7.  Padding a padded image changes nothing, and padding does not
    change the number of 8x8 tiles. *)
Theorem pad_image_idempotent (img : image) (h w : nat) :
  raster h w img →
  _pad_image (_pad_image img) = _pad_image img
  ∧ tiles (round_up8 h) (round_up8 w) = tiles h w.
Proof.
  intros Himg. split; [|apply tiles_round_up8].
  apply (pad_image_aligned (round_up8 h) (round_up8 w));
    [now apply pad_image_raster | apply round_up8_spec..].
Qed.

(** *** The size of a message in bytes *)

Lemma utf8_encode_char_length c bs :
  utf8_encode_char c = Some bs →
  (1 ≤ length bs ≤ 4)%nat ∧ (length bs = 1%nat ↔ c < 0x80).
Proof.
  intros H. pose proof (utf8_encode_char_bytes _ _ H) as [_ Hc].
  rewrite (utf8_encode_char_arith c Hc) in H. injection H as <-.
  repeat match goal with
         | |- context [?a <? ?b] => destruct (Z.ltb_spec a b)
         end; cbn [length]; (split; [lia|split; intros; lia]).
Qed.

Lemma utf8_encode_from_length s : ∀ position bs,
  utf8_encode_from position s = Return bs →
  (length s ≤ length bs ≤ 4 * length s)%nat
  ∧ (length bs = length s ↔ Forall (λ c, c < 0x80) s).
Proof.
  induction s as [|c s IH]; intros position bs H; cbn [utf8_encode_from] in H.
  - apply Return_inj in H. subst bs. cbn. split; [lia|]. split; [constructor | reflexivity].
  - destruct (utf8_encode_char c) as [cb|] eqn:Hc; [|discriminate].
    destruct (utf8_encode_from (S position) s) as [tl|] eqn:Htl; [|discriminate].
    cbn [mbind result_bind mret result_ret] in H. apply Return_inj in H. subst bs.
    destruct (utf8_encode_char_length _ _ Hc) as [Hcl Hc1].
    destruct (IH _ _ Htl) as [Htll Htl1].
    rewrite length_app. cbn [length]. split; [lia|].
    rewrite Forall_cons. split.
    + intros Heq. assert (length cb = 1%nat ∧ length tl = length s) as [H1 H2] by lia.
      split; [now apply Hc1 | now apply Htl1].
    + intros [H1 H2]. apply Hc1 in H1. apply Htl1 in H2. lia.
Qed.

Lemma utf8_encode_size (message : str) (message_bytes : bytes) :
  utf8_encode message = Return message_bytes →
  (length message ≤ length message_bytes ≤ 4 * length message)%nat
  ∧ (length message_bytes = length message ↔ Forall (λ c, c < 0x80) message)
  ∧ (Forall (λ c, c < 0x80) message → message_bytes = message).
Proof.
  intros Henc. destruct (utf8_encode_from_length _ _ _ Henc) as [Hlen Hascii].
  split; [exact Hlen|]. split; [exact Hascii|].
  intros Hall. clear Hlen Hascii. unfold utf8_encode in Henc.
  revert message_bytes Henc. generalize 0%nat.
  induction Hall as [|c s Hc _ IH]; intros position bs H; cbn [utf8_encode_from] in H.
  - now apply Return_inj in H.
  - destruct (utf8_encode_char c) as [cb|] eqn:Hcb; [|discriminate].
    destruct (utf8_encode_from (S position) s) as [tl|] eqn:Htl; [|discriminate].
    cbn [mbind result_bind mret result_ret] in H. apply Return_inj in H. subst bs.
    rewrite (IH _ _ Htl).
    pose proof (utf8_encode_char_bytes _ _ Hcb) as [_ Hsc].
    rewrite (utf8_encode_char_arith c Hsc) in Hcb.
    destruct (Z.ltb_spec c 0x80); [|lia]. now injection Hcb as <-.
Qed.

(** X8.  When [_message_to_binary] returns, the length of the bit
    string is a multiple of 8, lies between 8 and 32 bits for each
    character of the message, and is 8 bits for each character exactly
    when every character is below U+0080. *)
Theorem binary_message_size (message binary_message : str) :
  _message_to_binary message = Return binary_message →
  (8 * length message ≤ length binary_message ≤ 32 * length message)%nat
  ∧ (length binary_message `mod` 8 = 0)%nat
  ∧ (length binary_message = (8 * length message)%nat
     ↔ Forall (λ c, c < 0x80) message).
Proof.
  intros Hbin. unfold _message_to_binary in Hbin.
  destruct (utf8_encode message) as [message_bytes|e] eqn:Henc; [|discriminate].
  cbn [mbind result_bind] in Hbin. apply Return_inj in Hbin. subst binary_message.
  destruct (utf8_encode_from_bytes _ _ _ Henc) as [Hbytes _].
  rewrite (binary_message_length message_bytes Hbytes).
  destruct (utf8_encode_size message message_bytes Henc) as (Hlen & Hascii & _).
  split; [lia|]. split; [dlia|].
  rewrite <- Hascii. lia.
Qed.

(** *** The lenient decoder yields valid text *)

Ltac split_test :=
  match goal with
  | |- context [?a <? ?b] => destruct (Z.ltb_spec a b)
  | |- context [?a <=? ?b] => destruct (Z.leb_spec a b)
  | |- context [?a =? ?b] => destruct (Z.eqb_spec a b)
  end; cbn [andb negb orb]; cbv beta match.

Ltac split_tail :=
  match goal with
  | |- context [match ?l with [] => _ | _ :: _ => _ end] =>
      is_var l; destruct l; cbv beta match
  end.

Ltac bytes_of_suffix :=
  repeat match goal with
         | H : Forall _ (_ :: _) |- _ => apply Forall_cons in H as [? H]
         end;
  repeat (apply Forall_cons; split; [assumption|]); assumption.

Ltac decoded_tail IH :=
  match goal with
  | |- context [utf8_decode_ignore ?X] =>
      let Hv := fresh "Hv" in
      let Hl := fresh "Hl" in
      destruct (IH X) as [Hv Hl];
      [cbn [length] in *; lia | bytes_of_suffix |]
  end.

Lemma utf8_decode_ignore_valid (n : nat) : ∀ b : bytes,
  (length b ≤ n)%nat → Forall is_byte b →
  Forall scalar_value (utf8_decode_ignore b)
  ∧ (length (utf8_decode_ignore b) ≤ length b)%nat.
Proof.
  induction n as [|n IH]; intros b Hlen Hb.
  { destruct b; [split; [constructor | reflexivity] | cbn in Hlen; lia]. }
  destruct b as [|ch rest]; [split; [constructor | reflexivity]|].
  cbn [utf8_decode_ignore]. unfold is_continuation.
  change (Z.lor (0xC0 ≪ 6) 0x80) with 12416.
  change (Z.lor (Z.lor (0xE0 ≪ 12) (0x80 ≪ 6)) 0x80) with 925824.
  change (Z.lor (Z.lor (Z.lor (0xF0 ≪ 18) (0x80 ≪ 12)) (0x80 ≪ 6)) 0x80)
    with 63447168.
  repeat first [split_test | split_tail];
    rewrite ?Z.shiftl_mul_pow2 by lia;
    change (2 ^ 6) with 64; change (2 ^ 12) with 4096;
    change (2 ^ 18) with 262144;
    try decoded_tail IH;
    (split;
     [ first [ apply Forall_nil_2
             | assumption
             | apply Forall_cons; split; [|assumption];
               repeat match goal with
                      | H : Forall _ (_ :: _) |- _ =>
                          apply Forall_cons in H as [? H]
                      end;
               unfold is_byte, scalar_value in *; lia ]
     | cbn [length] in *; lia ]).
Qed.

(** X9.  On every bit string [_binary_to_message] returns a text.  The
    text consists of Unicode scalar values, has at most one character for
    each complete group of eight bits, and can be encoded again. *)
Theorem revealed_text_is_valid (binary_message : str) :
  is_bits binary_message →
  ∃ text message_bytes,
    _binary_to_message binary_message = Return (Some text)
    ∧ Forall scalar_value text
    ∧ (length text ≤ length binary_message / 8)%nat
    ∧ utf8_encode text = Return message_bytes.
Proof.
  intros Hbits.
  destruct (grouped_bytes_spec binary_message Hbits) as (Hlen & Hbytes & _).
  destruct (utf8_decode_ignore_valid _ (grouped_bytes binary_message)
              (Nat.le_refl _) Hbytes) as [Hvalid Hshort].
  destruct (utf8_encode_from_total _ 0%nat Hvalid) as [message_bytes Henc].
  exists (utf8_decode_ignore (grouped_bytes binary_message)), message_bytes.
  split; [now apply binary_to_message_bits|].
  split; [exact Hvalid|]. split; [now rewrite <- Hlen | exact Henc].
Qed.

(** *** What the embedding loop leaves in [dct_blocks] *)

Lemma embed_bit_embedded payload dct_blocks k i block ch :
  block8 block → dct_blocks !! i = Some block → payload !! k = Some ch →
  ch = 48 ∨ ch = 49 →
  ∃ new_block, embedded_block ch block = Some new_block
               ∧ embed_bit payload dct_blocks k i = Return new_block.
Proof.
  intros Hb8 Hblock Hch Hbit.
  destruct (carrier_rect _ (quantize_rect _ Hb8)) as [v Hv].
  unfold embedded_block. rewrite (proj1 (carrier_entry _ _) Hv). cbn [fmap option_fmap option_map].
  eexists. split; [reflexivity|].
  unfold embed_bit.
  rewrite (proj2 (getitem_Return _ _ _) Hblock). bind_simpl.
  rewrite (proj2 (getitem_Return _ _ _) Hch). bind_simpl.
  rewrite (int_of_10_bit ch Hbit). bind_simpl.
  now rewrite (write_bit_written _ _ _ Hv).
Qed.

Lemma embed_loop_from payload : ∀ n k dct_blocks,
  Forall block8 dct_blocks → is_bits payload →
  (k + n ≤ length dct_blocks)%nat → (k + n ≤ length payload)%nat →
  ∃ dct_blocks',
    embed_loop payload (seq k n) dct_blocks k = (dct_blocks', Return ())
    ∧ length dct_blocks' = length dct_blocks
    ∧ (∀ i, (i < k ∨ k + n ≤ i)%nat → dct_blocks' !! i = dct_blocks !! i)
    ∧ (∀ i block ch, (k ≤ i < k + n)%nat →
         dct_blocks !! i = Some block → payload !! i = Some ch →
         dct_blocks' !! i = embedded_block ch block).
Proof.
  induction n as [|n IH]; intros k dct_blocks Hb8 Hbits Hkb Hkp.
  - exists dct_blocks. cbn [seq embed_loop].
    split; [reflexivity|]. split; [reflexivity|]. split; [reflexivity|].
    intros i block ch Hi. lia.
  - destruct (lookup_lt_is_Some_2 dct_blocks k ltac:(lia)) as [block Hblock].
    destruct (lookup_lt_is_Some_2 payload k ltac:(lia)) as [ch Hch].
    pose proof (Forall_lookup_1 _ _ _ _ Hb8 Hblock) as Hblock8.
    pose proof (Forall_lookup_1 _ _ _ _ Hbits Hch) as Hbit.
    destruct (embed_bit_embedded payload dct_blocks k k block ch Hblock8 Hblock Hch Hbit)
      as (nb & Hemb & Hrun).
    destruct (embed_bit_block8 payload dct_blocks k k Hb8 Hbits) as (nb' & Hnb' & Hnb8);
      [lia | lia |].
    rewrite Hrun in Hnb'. apply Return_inj in Hnb'. subst nb'.
    cbn [seq embed_loop]. rewrite Hrun.
    destruct (IH (S k) (<[k := nb]> dct_blocks)) as (bs & Hbs & Hlen & Hout & Hin).
    + now apply Forall_insert.
    + exact Hbits.
    + rewrite length_insert. lia.
    + lia.
    + exists bs. rewrite length_insert in Hlen.
      split; [exact Hbs|]. split; [exact Hlen|]. split.
      * intros i Hi. rewrite Hout by lia. apply list_lookup_insert_ne. lia.
      * intros i block' ch' Hi Hblock' Hch'.
        destruct (decide (i = k)) as [->|Hne].
        -- rewrite Hout by lia.
           rewrite list_lookup_insert_eq by lia.
           rewrite Hblock in Hblock'. rewrite Hch in Hch'.
           injection Hblock' as <-. injection Hch' as <-. now rewrite Hemb.
        -- apply Hin; [lia | | exact Hch'].
           now rewrite list_lookup_insert_ne by lia.
Qed.

(** X10.  The embedding loop of lines 87-95, on a bit payload no
    longer than the list of 8x8 blocks, runs to its end.  It keeps the
    number of blocks, leaves every block from index [len(payload)] on as it
    was, and replaces block [i] by the dequantised form of its quantised
    block in which entry (2, 1) has bit [i] of the payload as its lowest
    bit and every other entry is unchanged. *)
Theorem embedding_touches_payload_blocks_only (full_binary_payload : str)
    (dct_blocks : list ndarray) :
  Forall block8 dct_blocks → is_bits full_binary_payload →
  (length full_binary_payload ≤ length dct_blocks)%nat →
  ∃ dct_blocks',
    embed_loop full_binary_payload (seq 0 (length full_binary_payload)) dct_blocks 0
    = (dct_blocks', Return ())
    ∧ length dct_blocks' = length dct_blocks
    ∧ (∀ i, (length full_binary_payload ≤ i)%nat →
            dct_blocks' !! i = dct_blocks !! i)
    ∧ (∀ i block ch,
         dct_blocks !! i = Some block → full_binary_payload !! i = Some ch →
         ∃ v quantized_block',
           entry (quantize block) 2 1 = Some v
           ∧ dct_blocks' !! i = Some (dequantize quantized_block')
           ∧ entry quantized_block' 2 1 = Some (written (ch - 48) v)
           ∧ Z.land (written (ch - 48) v) 1 = ch - 48
           ∧ (∀ r c, ¬ (r = 2%nat ∧ c = 1%nat) →
                     entry quantized_block' r c = entry (quantize block) r c)).
Proof.
  intros Hb8 Hbits Hlen.
  destruct (embed_loop_from full_binary_payload (length full_binary_payload) 0
              dct_blocks Hb8 Hbits) as (bs & Hbs & Hl & Hout & Hin); [lia..|].
  exists bs. split; [exact Hbs|]. split; [exact Hl|].
  split; [intros i Hi; apply Hout; lia|].
  intros i block ch Hblock Hch.
  pose proof (lookup_lt_Some _ _ _ Hch) as Hi.
  rewrite (Hin i block ch ltac:(lia) Hblock Hch).
  pose proof (Forall_lookup_1 _ _ _ _ Hb8 Hblock) as Hblock8.
  pose proof (Forall_lookup_1 _ _ _ _ Hbits Hch) as Hbit.
  destruct (carrier_rect _ (quantize_rect _ Hblock8)) as [v Hv].
  apply carrier_entry in Hv.
  exists v. eexists. split; [exact Hv|].
  unfold embedded_block. rewrite Hv. cbn [fmap option_fmap option_map].
  split; [reflexivity|].
  split; [rewrite entry_alter_carrier, decide_True by done; now rewrite Hv|].
  split; [apply written_lsb; destruct Hbit as [-> | ->]; [left | right]; reflexivity|].
  intros r c Hrc. rewrite entry_alter_carrier. now rewrite decide_False.
Qed.

(** *** The order of the blocks *)

Lemma lookup_bind_const {A B : Type} (f : A → list B) (m : nat) (l : list A) :
  (∀ x, length (f x) = m) →
  ∀ i j x, l !! i = Some x → (j < m)%nat →
           (l ≫= f) !! (i * m + j)%nat = f x !! j.
Proof.
  intros Hf. induction l as [|y l IH]; intros i j x Hx Hj; [discriminate|].
  rewrite bind_cons. destruct i as [|i].
  - injection Hx as ->. cbn [Nat.mul Nat.add].
    apply lookup_app_l. now rewrite Hf.
  - cbn [lookup list_lookup] in Hx.
    rewrite lookup_app_r by (rewrite Hf; lia).
    rewrite Hf. replace (S i * m + j - m)%nat with (i * m + j)%nat by lia.
    now apply IH.
Qed.

Lemma range_step_lookup n k :
  (k < (n + 7) / 8)%nat → range_step n 8 !! k = Some (k * 8)%nat.
Proof.
  intros Hk. unfold range_step. rewrite list_lookup_fmap.
  rewrite lookup_seq_lt by (replace (n + 8 - 1)%nat with (n + 7)%nat by lia; exact Hk).
  reflexivity.
Qed.

Lemma traversal_lookup {B : Type} (f : nat → nat → B) h w r c :
  (r < (h + 7) / 8)%nat → (c < (w + 7) / 8)%nat →
  (i ← range_step h 8; j ← range_step w 8; [f i j]) !! (r * ((w + 7) / 8) + c)%nat
  = Some (f (r * 8) (c * 8))%nat.
Proof.
  intros Hr Hc.
  rewrite (lookup_bind_const _ ((w + 7) / 8)%nat _) with (x := (r * 8)%nat);
    [| | now apply range_step_lookup | exact Hc].
  - replace c with (c * 1 + 0)%nat at 1 by lia.
    rewrite (lookup_bind_const _ 1%nat _) with (x := (c * 8)%nat);
      [reflexivity | reflexivity | now apply range_step_lookup | lia].
  - intros i. rewrite (bind_length_const _ 1%nat) by reflexivity.
    rewrite range_step_length. lia.
Qed.

(** X11.  [_apply_dct] yields [ceil(h/8) * ceil(w/8)] blocks in
    row-major order: the block of the tile in tile row [r] and tile column
    [c] is at index [r * ceil(w/8) + c], and it is the two-dimensional
    transform of that tile after the shift by 128. *)
Theorem blocks_in_raster_order E (image_channel : plane) (h w r c : nat) :
  shape image_channel = (h, w) →
  (r < (h + 7) / 8)%nat → (c < (w + 7) / 8)%nat →
  length (_apply_dct E image_channel).1.1 = (((h + 7) / 8) * ((w + 7) / 8))%nat
  ∧ (_apply_dct E image_channel).1.1 !! (r * ((w + 7) / 8) + c)%nat
    = Some (Float32 (dct2 E (centred_block image_channel (8 * r) (8 * c)))).
Proof.
  intros Hshape Hr Hc. unfold _apply_dct. rewrite Hshape. cbn [fst snd].
  split.
  - apply (traversal_length (λ i j, Float32 (dct2 E (centred_block image_channel i j)))).
  - rewrite (traversal_lookup
               (λ i j, Float32 (dct2 E (centred_block image_channel i j))) h w r c Hr Hc).
    now rewrite (Nat.mul_comm r 8), (Nat.mul_comm c 8).
Qed.

(** *** Bounds of the inverse transform *)

Lemma idct_loop_short E h w dct_blocks :
  shape_preserving E → Forall block8 dct_blocks →
  ∀ positions (reconstructed_image : list (list float)) block_index,
    rect h w reconstructed_image →
    Forall (λ p : nat * nat, (p.1 + 8 ≤ h)%nat ∧ (p.2 + 8 ≤ w)%nat) positions →
    (block_index ≤ length dct_blocks)%nat →
    (length dct_blocks < block_index + length positions)%nat →
    idct_loop E dct_blocks positions reconstructed_image block_index
    = Raise IndexError.
Proof.
  intros HE Hb. induction positions as [|[i j] positions IH];
    intros img k Himg Hpos Hle Hk; [cbn [length] in Hk; lia|].
  apply Forall_cons in Hpos as [[Hi Hj] Hpos]. cbn [length fst snd] in *.
  cbn [idct_loop].
  destruct (dct_blocks !! k) as [block|] eqn:Hblock.
  - rewrite (proj2 (getitem_Return _ _ _) Hblock). bind_simpl.
    pose proof (Forall_lookup_1 _ _ _ _ Hb Hblock) as Hb8.
    pose proof (lookup_lt_Some _ _ _ Hblock) as Hlt.
    destruct (assign_slice8_ok h w img (idct2 E block) i j) as (img' & Ha & Himg');
      [done | now apply idct2_rect | done | done |].
    rewrite Ha. bind_simpl. apply IH; [done | done | lia | lia].
  - unfold getitem. rewrite Hblock. reflexivity.
Qed.

(** X12.  For [h] and [w] multiples of 8 and 8x8 blocks, [_apply_idct]
    returns an [h x w] array when the list has at least [h/8 * w/8] blocks
    (further blocks are not read), and raises [IndexError] when it has
    fewer. *)
Theorem apply_idct_bounds E (dct_blocks : list ndarray) (h w : nat) :
  shape_preserving E → Forall block8 dct_blocks →
  (h `mod` 8 = 0)%nat → (w `mod` 8 = 0)%nat →
  ((tiles h w ≤ length dct_blocks)%nat →
   ∃ reconstructed, _apply_idct E dct_blocks h w = Return reconstructed
                    ∧ rect h w reconstructed)
  ∧ ((length dct_blocks < tiles h w)%nat →
     _apply_idct E dct_blocks h w = Raise IndexError).
Proof.
  intros HE Hb Hh Hw.
  assert (Forall (λ p : nat * nat, (p.1 + 8 ≤ h)%nat ∧ (p.2 + 8 ≤ w)%nat)
            (i ← range_step h 8; j ← range_step w 8; [(i, j)])) as Hpos.
  { apply (traversal_Forall _ (λ i j, (i, j))); [done..|]. cbn. auto. }
  pose proof (traversal_length (λ i j, (i, j)) h w) as Hlen.
  split; intros Hcount; unfold _apply_idct.
  - destruct (idct_loop_ok E h w dct_blocks HE Hb _
                (replicate h (replicate w 0%float)) 0 (rect_replicate h w _) Hpos)
      as (r & -> & Hr); [rewrite Hlen; lia|].
    bind_simpl. eexists. split; [reflexivity|]. now apply rect_map2d.
  - rewrite (idct_loop_short E h w dct_blocks HE Hb _
               (replicate h (replicate w 0%float)) 0 (rect_replicate h w _) Hpos);
      [reflexivity | lia | rewrite Hlen; lia].
Qed.

(** *** Where the inverse transform puts each block *)

Lemma rect_ext {A : Type} h w (a b : list (list A)) :
  rect h w a → rect h w b →
  (∀ r c, (r < h)%nat → (c < w)%nat → entry a r c = entry b r c) → a = b.
Proof.
  intros [Ha Hwa] [Hb Hwb] Hent. apply list_eq. intros r.
  destruct (Nat.lt_ge_cases r h) as [Hr|Hr].
  - destruct (lookup_lt_is_Some_2 a r ltac:(lia)) as [ra Hra].
    destruct (lookup_lt_is_Some_2 b r ltac:(lia)) as [rb Hrb].
    rewrite Hra, Hrb. f_equal. apply list_eq. intros c.
    pose proof (Forall_lookup_1 _ _ _ _ Hwa Hra) as Hla.
    pose proof (Forall_lookup_1 _ _ _ _ Hwb Hrb) as Hlb. cbv beta in *.
    destruct (Nat.lt_ge_cases c w) as [Hc|Hc].
    + specialize (Hent r c Hr Hc). unfold entry in Hent.
      now rewrite Hra, Hrb in Hent.
    + rewrite !lookup_ge_None_2 by lia. reflexivity.
  - rewrite !lookup_ge_None_2 by lia. reflexivity.
Qed.

Lemma entry_slice8 {A : Type} (a : list (list A)) i j r c :
  (r < 8)%nat → (c < 8)%nat →
  entry (slice8 a i j) r c = entry a (i + r) (j + c).
Proof.
  intros Hr Hc. unfold entry, slice8.
  rewrite list_lookup_fmap, lookup_take_lt by lia. rewrite lookup_drop.
  destruct (a !! (i + r)%nat) as [row|]; cbn; [|reflexivity].
  rewrite lookup_take_lt by lia. now rewrite lookup_drop.
Qed.

Lemma entry_assign_slice8 {A : Type} h w (a b a' : list (list A)) i j r c :
  rect h w a → rect 8 8 b → (i + 8 ≤ h)%nat → (j + 8 ≤ w)%nat →
  assign_slice8 a i j b = Return a' →
  entry a' r c
  = if decide ((i ≤ r < i + 8)%nat ∧ (j ≤ c < j + 8)%nat)
    then entry b (r - i) (c - j)
    else entry a r c.
Proof.
  intros Ha Hb Hi Hj Hassign. unfold assign_slice8 in Hassign.
  rewrite (rect_shape 8 8 b Hb) in Hassign by lia.
  rewrite (rect_shape 8 8 _ (rect_slice8 h w a i j Ha Hi Hj)) in Hassign by lia.
  rewrite decide_True in Hassign by (split; [done | apply Hb]).
  apply Return_inj in Hassign. subst a'.
  destruct Ha as [Hh Hw], Hb as [Hbh Hbw]. unfold entry.
  destruct (Nat.lt_ge_cases r i) as [Hlt|Hge].
  { rewrite decide_False by lia.
    rewrite lookup_app_l by (rewrite length_take; lia).
    now rewrite lookup_take_lt by lia. }
  rewrite lookup_app_r by (rewrite length_take; lia).
  rewrite length_take. replace (i `min` length a)%nat with i by lia.
  destruct (Nat.lt_ge_cases r (i + 8)) as [Hin|Hout].
  - rewrite lookup_app_l by (rewrite length_zip_with, length_take, length_drop; lia).
    rewrite lookup_zip_with, lookup_take_lt by lia. rewrite lookup_drop.
    replace (i + (r - i))%nat with r by lia.
    destruct (lookup_lt_is_Some_2 a r ltac:(lia)) as [ra Hra].
    destruct (lookup_lt_is_Some_2 b (r - i) ltac:(lia)) as [rb Hrb].
    rewrite Hra, Hrb. cbn [mbind option_bind].
    pose proof (Forall_lookup_1 _ _ _ _ Hw Hra) as Hla.
    pose proof (Forall_lookup_1 _ _ _ _ Hbw Hrb) as Hlb. cbv beta in *.
    destruct (Nat.lt_ge_cases c j) as [Hcl|Hcg].
    { rewrite decide_False by lia.
      rewrite lookup_app_l by (rewrite length_take; lia).
      now rewrite lookup_take_lt by lia. }
    rewrite lookup_app_r by (rewrite length_take; lia).
    rewrite length_take. replace (j `min` length ra)%nat with j by lia.
    destruct (Nat.lt_ge_cases c (j + 8)) as [Hcin|Hcout].
    + rewrite decide_True by lia. apply lookup_app_l. lia.
    + rewrite decide_False by lia.
      rewrite lookup_app_r by lia. rewrite lookup_drop. f_equal. lia.
  - rewrite decide_False by lia.
    rewrite lookup_app_r by (rewrite length_zip_with, length_take, length_drop; lia).
    rewrite length_zip_with, length_take, length_drop, lookup_drop.
    f_equal. f_equal. lia.
Qed.

Lemma in_tile i j r c :
  (i `mod` 8 = 0)%nat → (j `mod` 8 = 0)%nat →
  ((i ≤ r < i + 8)%nat ∧ (j ≤ c < j + 8)%nat) ↔ tile_of r c = (i, j).
Proof.
  intros Hi Hj. unfold tile_of. split.
  - intros [Hr Hc]. f_equal; dlia.
  - intros Heq. apply pair_equal_spec in Heq as [Hr Hc]. dlia.
Qed.

Lemma idct_loop_entries E h w dct_blocks :
  shape_preserving E → Forall block8 dct_blocks →
  ∀ positions (reconstructed_image : list (list float)) block_index,
    rect h w reconstructed_image →
    Forall (λ p : nat * nat,
              ((p.1 + 8 ≤ h)%nat ∧ (p.2 + 8 ≤ w)%nat)
              ∧ (p.1 `mod` 8 = 0)%nat ∧ (p.2 `mod` 8 = 0)%nat) positions →
    NoDup positions →
    (block_index + length positions ≤ length dct_blocks)%nat →
    ∃ result,
      idct_loop E dct_blocks positions reconstructed_image block_index
      = Return result
      ∧ rect h w result
      ∧ (∀ r c, tile_of r c ∉ positions →
                entry result r c = entry reconstructed_image r c)
      ∧ (∀ r c m block,
           positions !! m = Some (tile_of r c) →
           dct_blocks !! (block_index + m)%nat = Some block →
           entry result r c = entry (idct2 E block) (r `mod` 8) (c `mod` 8)).
Proof.
  intros HE Hb. induction positions as [|[i j] positions IH];
    intros img k Himg Hpos Hnd Hk.
  - exists img. cbn [idct_loop]. split; [reflexivity|]. split; [exact Himg|].
    split; [reflexivity|]. intros r c m block Hm. discriminate Hm.
  - apply Forall_cons in Hpos as [[[Hi Hj] [Hi8 Hj8]] Hpos].
    apply NoDup_cons in Hnd as [Hnotin Hnd]. cbn [length fst snd] in *.
    destruct (getitem_lt dct_blocks k) as (block & Hg & Hblock); [lia|].
    pose proof (Forall_lookup_1 _ _ _ _ Hb Hblock) as Hb8.
    destruct (assign_slice8_ok h w img (idct2 E block) i j) as (img' & Ha & Himg');
      [done | now apply idct2_rect | done | done |].
    pose proof (λ r c, entry_assign_slice8 h w img (idct2 E block) img' i j r c
                         Himg (idct2_rect E HE block Hb8) Hi Hj Ha) as Hentry.
    destruct (IH img' (S k) Himg' Hpos Hnd ltac:(lia))
      as (result & Hres & Hrect & Hout & Hin).
    exists result. cbn [idct_loop]. rewrite Hg. bind_simpl. rewrite Ha. bind_simpl.
    split; [exact Hres|]. split; [exact Hrect|]. split.
    + intros r c Hnot. apply not_elem_of_cons in Hnot as [Hne Hnot].
      rewrite (Hout r c Hnot), Hentry.
      rewrite decide_False; [reflexivity|].
      intros Hin'. apply Hne. exact (proj1 (in_tile i j r c Hi8 Hj8) Hin').
    + intros r c m block' Hm Hblock'. destruct m as [|m].
      * cbn [lookup list_lookup] in Hm. apply (inj Some) in Hm as Htile.
        rewrite Nat.add_0_r in Hblock'. rewrite Hblock in Hblock'.
        injection Hblock' as <-.
        rewrite Hout by (rewrite <- Htile; exact Hnotin).
        rewrite Hentry.
        pose proof (proj2 (in_tile i j r c Hi8 Hj8) (eq_sym Htile)) as Hin'.
        rewrite decide_True by exact Hin'.
        f_equal; dlia.
      * cbn [lookup list_lookup] in Hm.
        apply (Hin r c m block' Hm).
        now replace (S k + m)%nat with (k + S m)%nat by lia.
Qed.

Lemma traversal_NoDup h w :
  NoDup (i ← range_step h 8; j ← range_step w 8; [(i, j)]).
Proof.
  assert (∀ n, NoDup (range_step n 8)) as Hrange.
  { intros n. unfold range_step. apply NoDup_fmap_2; [|apply NoDup_seq].
    intros x y Hxy. lia. }
  apply NoDup_bind; [| |apply Hrange].
  - intros i1 i2 p _ _ Hp1 Hp2.
    apply list_elem_of_bind in Hp1 as (j1 & Hp1 & _).
    apply list_elem_of_bind in Hp2 as (j2 & Hp2 & _).
    apply list_elem_of_singleton in Hp1, Hp2. congruence.
  - intros i _. apply NoDup_bind; [| |apply Hrange].
    + intros j1 j2 p _ _ Hp1 Hp2.
      apply list_elem_of_singleton in Hp1, Hp2. congruence.
    + intros j _. apply NoDup_singleton.
Qed.

Lemma traversal_tiles h w :
  (h `mod` 8 = 0)%nat → (w `mod` 8 = 0)%nat →
  Forall (λ p : nat * nat,
            ((p.1 + 8 ≤ h)%nat ∧ (p.2 + 8 ≤ w)%nat)
            ∧ (p.1 `mod` 8 = 0)%nat ∧ (p.2 `mod` 8 = 0)%nat)
         (i ← range_step h 8; j ← range_step w 8; [(i, j)]).
Proof.
  intros Hh Hw. apply Forall_forall. intros x Hx.
  apply list_elem_of_bind in Hx as (i & Hx & Hi).
  apply list_elem_of_bind in Hx as (j & Hx & Hj).
  apply list_elem_of_singleton in Hx as ->. cbn [fst snd].
  split; [split; now apply range_step_aligned|].
  unfold range_step in Hi, Hj.
  apply list_elem_of_fmap in Hi as (ki & -> & _).
  apply list_elem_of_fmap in Hj as (kj & -> & _).
  split; apply Nat.Div0.mod_mul.
Qed.

(** X13.  [_apply_idct] puts block [r * (w/8) + c] on the tile in
    tile row [r] and tile column [c]: the window of the result at rows
    [8r .. 8r+7] and columns [8c .. 8c+7] is the inverse transform of that
    block with 128 added to every sample. *)
Theorem blocks_return_to_their_tiles E (dct_blocks : list ndarray)
    (h w r c : nat) (block : ndarray) :
  shape_preserving E → Forall block8 dct_blocks →
  (h `mod` 8 = 0)%nat → (w `mod` 8 = 0)%nat →
  (tiles h w ≤ length dct_blocks)%nat →
  (r < h / 8)%nat → (c < w / 8)%nat →
  dct_blocks !! (r * (w / 8) + c)%nat = Some block →
  ∃ reconstructed,
    _apply_idct E dct_blocks h w = Return reconstructed
    ∧ rect h w reconstructed
    ∧ slice8 reconstructed (8 * r) (8 * c)
      = map2d (λ x, PrimFloat.add x 128%float) (idct2 E block).
Proof.
  intros HE Hb Hh Hw Hcount Hr Hc Hblock.
  assert ((h + 7) / 8 = h / 8 ∧ (w + 7) / 8 = w / 8)%nat as [Hh8 Hw8] by dlia.
  destruct (idct_loop_entries E h w dct_blocks HE Hb
              (i ← range_step h 8; j ← range_step w 8; [(i, j)])
              (replicate h (replicate w 0%float)) 0 (rect_replicate h w _))
    as (result & Hres & Hrect & _ & Hin).
  { now apply traversal_tiles. }
  { apply traversal_NoDup. }
  { rewrite (traversal_length (λ i j, (i, j))). lia. }
  exists (map2d (λ x, PrimFloat.add x 128%float) result).
  unfold _apply_idct. rewrite Hres. bind_simpl.
  split; [reflexivity|]. split; [now apply rect_map2d|].
  pose proof (idct2_rect E HE block
                (Forall_lookup_1 _ _ _ _ Hb Hblock)) as Hblock8.
  apply (rect_ext 8 8).
  - apply (rect_slice8 h w); [now apply rect_map2d | dlia | dlia].
  - now apply rect_map2d.
  - intros r' c' Hr' Hc'.
    rewrite entry_slice8, !entry_map2d by done. f_equal.
    rewrite (Hin (8 * r + r')%nat (8 * c + c')%nat (r * (w / 8) + c)%nat block).
    + f_equal; dlia.
    + replace (tile_of (8 * r + r') (8 * c + c')) with ((r * 8)%nat, (c * 8)%nat)
        by (unfold tile_of; f_equal; dlia).
      rewrite <- Hw8.
      apply (traversal_lookup (λ i j, (i, j))); lia.
    + exact Hblock.
Qed.

(** *** What the lenient decoder yields takes no more bytes than it read *)





(** *** Division of binary64 integers that divide exactly *)

Lemma digits2_pos_bounds p :
  2 ^ (Zpos (digits2_pos p) - 1) ≤ Zpos p < 2 ^ Zpos (digits2_pos p).
Proof.
  induction p as [p IH|p IH|]; cbn [digits2_pos]; [| |split; reflexivity].
  - rewrite Pos2Z.inj_succ. replace (Z.succ (Zpos (digits2_pos p)) - 1)
      with (Z.succ (Zpos (digits2_pos p) - 1)) by lia.
    rewrite !Z.pow_succ_r by lia. lia.
  - rewrite Pos2Z.inj_succ. replace (Z.succ (Zpos (digits2_pos p)) - 1)
      with (Z.succ (Zpos (digits2_pos p) - 1)) by lia.
    rewrite !Z.pow_succ_r by lia. lia.
Qed.

Lemma digits2_pos_unique p d :
  2 ^ (d - 1) ≤ Zpos p < 2 ^ d → Zpos (digits2_pos p) = d.
Proof.
  intros [Hlo Hhi]. pose proof (digits2_pos_bounds p) as [Hlo' Hhi'].
  assert (0 < d) as Hd.
  { destruct (Z.lt_ge_cases 0 d) as [|Hle]; [done|].
    rewrite (Z.pow_neg_r 2 (d - 1)) in Hlo by lia.
    destruct (Z.eq_dec d 0) as [->|]; [cbn in Hhi; lia|].
    rewrite (Z.pow_neg_r 2 d) in Hhi by lia. lia. }
  destruct (Z.lt_trichotomy (Zpos (digits2_pos p)) d) as [Hlt|[Heq|Hgt]];
    [|exact Heq|].
  - assert (2 ^ Zpos (digits2_pos p) ≤ 2 ^ (d - 1)) by (apply Z.pow_le_mono_r; lia).
    lia.
  - assert (2 ^ d ≤ 2 ^ (Zpos (digits2_pos p) - 1)) by (apply Z.pow_le_mono_r; lia).
    lia.
Qed.

Lemma iter_xO_value k p : Zpos (Pos.iter xO p k) = Zpos p * 2 ^ Zpos k.
Proof.
  induction k as [|k IH] using Pos.peano_ind.
  - cbn. lia.
  - rewrite Pos.iter_succ, Pos2Z.inj_succ, Z.pow_succ_r by lia.
    rewrite Pos2Z.inj_xO, IH. lia.
Qed.

(** A mantissa of 53 bits is kept as it is. *)
Lemma round_normal s m e :
  Zpos (digits2_pos m) = 53 → -1074 ≤ e ≤ 971 →
  binary_round_aux prec emax s (Zpos m) e loc_Exact = S754_finite s m e.
Proof.
  intros Hd He. unfold binary_round_aux, shr_fexp.
  cbn [Zdigits2 shr_record_of_loc]. rewrite Hd.
  replace (fexp prec emax (53 + e) - e) with 0
    by (unfold fexp, SpecFloat.emin, prec, emax; lia).
  cbn [shr shr_m loc_of_shr_record round_nearest_even Zdigits2]. rewrite Hd.
  replace (fexp prec emax (53 + e) - e) with 0
    by (unfold fexp, SpecFloat.emin, prec, emax; lia).
  cbn [shr shr_m].
  replace (e <=? emax - prec) with true
    by (symmetry; apply Z.leb_le; unfold prec, emax; lia).
  reflexivity.
Qed.

(** An even mantissa of 54 bits loses its last bit, which is 0. *)
Lemma round_even s p e :
  Zpos (digits2_pos p) = 53 → -1075 ≤ e ≤ 970 →
  binary_round_aux prec emax s (Zpos p~0) e loc_Exact = S754_finite s p (e + 1).
Proof.
  intros Hd He. unfold binary_round_aux, shr_fexp.
  cbn [Zdigits2 shr_record_of_loc digits2_pos]. rewrite Pos2Z.inj_succ, Hd.
  replace (fexp prec emax (Z.succ 53 + e) - e) with 1
    by (unfold fexp, SpecFloat.emin, prec, emax; lia).
  cbn [shr SpecFloat.iter_pos shr_1 shr_m orb loc_of_shr_record round_nearest_even Zdigits2].
  rewrite Hd.
  replace (fexp prec emax (53 + (e + 1)) - (e + 1)) with 0
    by (unfold fexp, SpecFloat.emin, prec, emax; lia).
  cbn [shr shr_m].
  replace (e + 1 <=? emax - prec) with true
    by (symmetry; apply Z.leb_le; unfold prec, emax; lia).
  reflexivity.
Qed.

(** The binary64 value of a non-zero integer below 2^53: its magnitude
    shifted to 53 bits. *)
Lemma of_int_normal z :
  z ≠ 0 → Z.abs z < 2 ^ 53 →
  ∃ m e, Prim2SF (of_int z) = S754_finite (z <? 0) m e
         ∧ Zpos (digits2_pos m) = 53
         ∧ -52 ≤ e ≤ 0
         ∧ Zpos m = Z.abs z * 2 ^ (- e).
Proof.
  assert (∀ N, Zpos N < 2 ^ 53 →
            ∃ m e, Prim2SF (of_uint63 (Uint63.of_Z (Zpos N))) = S754_finite false m e
                   ∧ Zpos (digits2_pos m) = 53
                   ∧ -52 ≤ e ≤ 0
                   ∧ Zpos m = Zpos N * 2 ^ (- e)) as Hpos.
  { intros N HN. rewrite of_uint63_spec, Uint63.of_Z_spec.
    rewrite Z.mod_small
      by (split; [lia|]; eapply Z.lt_trans; [exact HN | reflexivity]).
    cbn [binary_normalize]. unfold binary_round, shl_align.
    pose proof (digits2_pos_bounds N) as [Hlo Hhi].
    assert (Zpos (digits2_pos N) ≤ 53) as Hd.
    { destruct (Z.le_gt_cases (Zpos (digits2_pos N)) 53) as [|Hgt]; [done|].
      assert (2 ^ 53 ≤ 2 ^ (Zpos (digits2_pos N) - 1))
        by (apply Z.pow_le_mono_r; lia).
      lia. }
    replace (fexp prec emax (Zpos (digits2_pos N) + 0) - 0)
      with (Zpos (digits2_pos N) - 53)
      by (unfold fexp, SpecFloat.emin, prec, emax; lia).
    replace (fexp prec emax (Zpos (digits2_pos N) + 0))
      with (Zpos (digits2_pos N) - 53)
      by (unfold fexp, SpecFloat.emin, prec, emax; lia).
    destruct (Zpos (digits2_pos N) - 53) as [|k|k] eqn:Hk; [|lia|].
    - exists N, 0. rewrite round_normal by lia.
      split; [reflexivity|]. split; [lia|]. split; [lia|]. cbn. lia.
    - exists (Pos.iter xO N k), (Zneg k).
      assert (Zpos (digits2_pos (Pos.iter xO N k)) = 53) as Hd'.
      { apply digits2_pos_unique. rewrite iter_xO_value.
        replace 53 with (Zpos (digits2_pos N) + Zpos k) by lia.
        replace (Zpos (digits2_pos N) + Zpos k - 1)
          with (Zpos (digits2_pos N) - 1 + Zpos k) by lia.
        rewrite !Z.pow_add_r by lia.
        assert (0 < 2 ^ Zpos k) by (apply Z.pow_pos_nonneg; lia). nia. }
      rewrite round_normal by lia.
      split; [reflexivity|]. split; [exact Hd'|]. split; [lia|].
      rewrite iter_xO_value. reflexivity. }
  intros Hz Hlt. destruct z as [|N|N]; [done| |].
  - apply Hpos. exact Hlt.
  - destruct (Hpos N Hlt) as (m & e & Hx & Hd & He & Hm).
    exists m, e. cbn [of_int]. rewrite opp_spec, Hx.
    split; [reflexivity|]. split; [exact Hd|]. split; [exact He | exact Hm].
Qed.

Lemma round_half_even_exact m e v :
  e ≤ 0 → Zpos m = v * 2 ^ (- e) → round_half_even m e = v.
Proof.
  intros He Hm. unfold round_half_even.
  destruct (Z.leb_spec 0 e) as [H0|Hneg].
  - replace e with 0 in * by lia. cbn in Hm. cbn. lia.
  - assert (0 < 2 ^ (- e)) as Hpow by (apply Z.pow_pos_nonneg; lia).
    cbv zeta. rewrite Hm, Z.div_mul, Z.mod_mul by lia.
    change (2 * 0) with 0.
    destruct (Z.compare_spec 0 (2 ^ (- e))); [lia | reflexivity | lia].
Qed.

Lemma div_eucl_exact q b : b ≠ 0 → Z.div_eucl (q * b) b = (q, 0).
Proof.
  intros Hb. pose proof (Z.div_mul q b Hb) as Hq.
  pose proof (Z.mod_mul q b Hb) as Hr.
  unfold Z.div, Z.modulo in Hq, Hr.
  destruct (Z.div_eucl (q * b) b) as [q' r']. cbn in Hq, Hr. now subst.
Qed.

(** The quotient of two binary64 numbers whose exact quotient is a positive
    integer [v] rounds to [v]. *)
Lemma div_exact sx mx ex sy my ey v :
  Zpos (digits2_pos mx) = 53 → Zpos (digits2_pos my) = 53 →
  -52 ≤ ex ≤ 0 → -52 ≤ ey ≤ 0 → 0 < v →
  Zpos mx * 2 ^ (- ey) = v * Zpos my * 2 ^ (- ex) →
  sf_round (SFdiv prec emax (S754_finite sx mx ex) (S754_finite sy my ey))
  = Some (if xorb sx sy then - v else v).
Proof.
  intros Hdx Hdy Hex Hey Hv Hval.
  pose proof (digits2_pos_bounds mx) as Hbx. rewrite Hdx in Hbx.
  pose proof (digits2_pos_bounds my) as Hby. rewrite Hdy in Hby.
  change (2 ^ (53 - 1)) with (2 ^ 52) in Hbx, Hby.
  set (k := 53 + ey - ex).
  assert (1 ≤ k) as Hk by (unfold k; lia).
  assert (0 < 2 ^ (- ey)) as Hpy by (apply Z.pow_pos_nonneg; lia).
  assert (0 < 2 ^ (- ex)) as Hpx by (apply Z.pow_pos_nonneg; lia).
  assert (0 < 2 ^ k) as Hpk by (apply Z.pow_pos_nonneg; lia).
  assert (0 < 2 ^ (k - 1)) as Hpk1 by (apply Z.pow_pos_nonneg; lia).
  assert (2 ^ k = 2 * 2 ^ (k - 1)) as Hksplit.
  { replace k with (Z.succ (k - 1)) at 1 by lia. apply Z.pow_succ_r. lia. }
  assert (Zpos mx * 2 ^ 53 = v * 2 ^ k * Zpos my) as Hq.
  { apply (Z.mul_reg_r _ _ (2 ^ (- ey))); [lia|].
    replace (v * 2 ^ k * Zpos my * 2 ^ (- ey))
      with (v * Zpos my * (2 ^ k * 2 ^ (- ey))) by ring.
    rewrite <- Z.pow_add_r by lia.
    replace (k + - ey) with (53 + - ex) by (unfold k; lia).
    rewrite Z.pow_add_r by lia.
    replace (Zpos mx * 2 ^ 53 * 2 ^ (- ey))
      with (Zpos mx * 2 ^ (- ey) * 2 ^ 53) by ring.
    rewrite Hval. ring. }
  unfold SFdiv, SFdiv_core_binary. cbn [Zdigits2]. rewrite Hdx, Hdy. cbv zeta.
  replace (Z.min (fexp prec emax (53 + ex - (53 + ey))) (ex - ey))
    with (- k)
    by (unfold fexp, SpecFloat.emin, prec, emax, k; lia).
  replace (ex - ey - - k) with 53 by (unfold k; lia).
  rewrite Z.shiftl_mul_pow2 by lia. rewrite Hq, div_eucl_exact by lia.
  replace (new_location (Zpos my) 0) with loc_Exact
    by (unfold new_location, new_location_even, new_location_odd;
        destruct (Z.even (Zpos my)); reflexivity).
  destruct (v * 2 ^ k) as [|Q|Q] eqn:HQ; [lia| |lia].
  assert (2 ^ 52 < Zpos Q < 2 ^ 54) as HQb.
  { rewrite <- HQ in *. split; nia. }
  destruct (Z.lt_ge_cases (Zpos Q) (2 ^ 53)) as [Hsmall|Hbig].
  - rewrite round_normal by (try (apply digits2_pos_unique); lia).
    cbn [sf_round]. rewrite (round_half_even_exact Q (- k) v); [reflexivity | lia |].
    rewrite Z.opp_involutive. lia.
  - destruct Q as [p|p|]; [lia| |lia].
    assert (Zpos p = v * 2 ^ (k - 1)) as Hp by lia.
    rewrite round_even by (try (apply digits2_pos_unique); lia).
    cbn [sf_round]. rewrite (round_half_even_exact p (- k + 1) v); [reflexivity | lia |].
    replace (- (- k + 1)) with (k - 1) by lia. exact Hp.
Qed.

(** [np.round((q * t) / t).astype(np.int32)] is [q]: the product is exact
    in binary64 and so is the quotient. *)
Lemma requantize_entry q t :
  0 < t < 2 ^ 21 → - 2 ^ 31 ≤ q < 2 ^ 31 →
  round_int32 (PrimFloat.div (of_int (q * t)) (of_int t)) = q.
Proof.
  intros Ht Hq. unfold round_int32. rewrite div_spec.
  destruct (of_int_normal t) as (my & ey & Hy & Hdy & Hey & Hmy); [lia | lia |].
  rewrite Hy. unfold SF64div.
  destruct (Z.eq_dec q 0) as [->|Hq0].
  { cbn [Z.mul of_int]. change (Prim2SF 0) with (S754_zero false).
    cbn [SFdiv sf_round astype_int32]. reflexivity. }
  destruct (of_int_normal (q * t)) as (mx & ex & Hx & Hdx & Hex & Hmx); [nia | nia |].
  rewrite Hx.
  rewrite (div_exact _ mx ex _ my ey (Z.abs q)); [|done|done|done|done|lia|].
  - replace (xorb (q * t <? 0) (t <? 0)) with (q <? 0).
    + replace (if q <? 0 then - Z.abs q else Z.abs q) with q
        by (destruct (Z.ltb_spec q 0); lia).
      cbn [astype_int32].
      destruct (Z.leb_spec (- 2 ^ 31) q); [|lia].
      destruct (Z.ltb_spec q (2 ^ 31)); [reflexivity | lia].
    + destruct (Z.ltb_spec q 0), (Z.ltb_spec (q * t) 0), (Z.ltb_spec t 0);
        try reflexivity; nia.
  - rewrite Hmx, Hmy, Z.abs_mul, (Z.abs_eq t) by lia. ring.
Qed.

(** *** Requantising a stored block *)




Lemma entry_Forall {A : Type} (P : A → Prop) (a : list (list A)) r c x :
  Forall (Forall P) a → entry a r c = Some x → P x.
Proof.
  intros Ha Hx. unfold entry in Hx.
  destruct (a !! r) as [row|] eqn:Hrow; [|discriminate Hx]. cbn in Hx.
  exact (Forall_lookup_1 _ _ _ _ (Forall_lookup_1 _ _ _ _ Ha Hrow) Hx).
Qed.

Lemma quantization_table_small :
  Forall (Forall (λ t, 0 < t < 2 ^ 21)) quantization_table.
Proof. apply (bool_decide_unpack _). vm_compute. exact I. Qed.

Lemma requantized_entry (quantized_block : matrix Z) r c v :
  (r < 8)%nat → (c < 8)%nat →
  entry quantized_block r c = Some v → is_int32 v →
  entry (quantize (dequantize quantized_block)) r c = Some v.
Proof.
  intros Hr Hc Hv Hint.
  destruct (rect_entry_is_Some 8 8 quantization_table r c
              quantization_table_rect Hr Hc) as [t Ht].
  unfold quantize, dequantize. cbn [as_float64].
  rewrite (entry_zip_with _ _ _ r c (of_int (v * t)) t); [|
    rewrite entry_map2d, (entry_zip_with Z.mul _ _ r c v t Hv Ht); reflexivity
    | exact Ht].
  f_equal. apply requantize_entry; [|exact Hint].
  exact (entry_Forall _ _ r c t quantization_table_small Ht).
Qed.

(** X15.  Requantising a block that line 95 stored gives back the integers
    it was made from: for an 8x8 block of [int32] values,
    [np.round((q * table) / table).astype(np.int32)] is [q], the products
    and the quotients being exact in binary64. *)
Theorem requantize_stored_block (quantized_block : matrix Z) :
  rect 8 8 quantized_block → Forall (Forall is_int32) quantized_block →
  quantize (dequantize quantized_block) = quantized_block.
Proof.
  intros Hq Hint.
  apply (rect_ext 8 8); [apply quantize_rect, dequantize_block8, Hq | exact Hq |].
  intros r c Hr Hc.
  destruct (rect_entry_is_Some 8 8 quantized_block r c Hq Hr Hc) as [v Hv].
  rewrite Hv. apply requantized_entry; [exact Hr | exact Hc | exact Hv |].
  exact (entry_Forall _ _ r c v Hint Hv).
Qed.

(** *** The round trip through the pixels *)




(** *** Instances of the further properties *)

(** "Hi" followed by three stray bits comes back as "Hi". *)
Lemma text_codec_roundtrip_witness :
  ∃ binary_message,
    _message_to_binary (lit "Hi") = Return binary_message
    ∧ is_bits binary_message
    ∧ _binary_to_message (binary_message ++ lit "101") = Return (Some (lit "Hi")).
Proof.
  apply (text_codec_roundtrip (lit "Hi") (lit "101")).
  - unfold scalar_value. apply (bool_decide_unpack _). vm_compute. exact I.
  - apply (bool_decide_unpack _). vm_compute. exact I.
  - vm_compute. lia.
Defined.


(** The byte 0xFF is dropped by the decoder; the text that comes back is
    valid. *)
Lemma revealed_text_witness :
  ∃ text message_bytes,
    _binary_to_message (lit "1111111101000001") = Return (Some text)
    ∧ Forall scalar_value text
    ∧ (length text ≤ length (lit "1111111101000001") / 8)%nat
    ∧ utf8_encode text = Return message_bytes.
Proof.
  apply (revealed_text_is_valid (lit "1111111101000001")).
  apply (bool_decide_unpack _). vm_compute. exact I.
Defined.



(** No file at "stego.png". *)
Lemma missing_file_witness :
  hide_message_run collaborators (world_with cover_png (flat_cover 8 0))
    stego_png (lit "A") cover_png
  = (None, Raise (FileNotFoundError (lit "Image not found.")))
  ∧ reveal_message collaborators (world_with cover_png (flat_cover 8 0)) stego_png
    = Raise (FileNotFoundError (lit "Stego image not found.")).
Proof.
  apply (missing_file_is_reported collaborators
           (world_with cover_png (flat_cover 8 0)) stego_png (lit "A") cover_png).
  vm_compute. reflexivity.
Defined.

(** Two bits into three blocks: the third block is left alone. *)
Lemma embedding_witness :
  ∃ dct_blocks',
    embed_loop (lit "10") (seq 0 2)
      (replicate 3 (Float32 (replicate 8 (replicate 8 26%float)))) 0
    = (dct_blocks', Return ())
    ∧ length dct_blocks' = 3%nat
    ∧ dct_blocks' !! 2%nat = Some (Float32 (replicate 8 (replicate 8 26%float))).
Proof.
  destruct (embedding_touches_payload_blocks_only (lit "10")
              (replicate 3 (Float32 (replicate 8 (replicate 8 26%float)))))
    as (blocks & Hloop & Hlen & Hrest & _).
  - apply Forall_replicate. apply rect_replicate.
  - apply (bool_decide_unpack _). vm_compute. exact I.
  - vm_compute. lia.
  - exists blocks. split; [exact Hloop|]. split; [exact Hlen|].
    apply (Hrest 2%nat). vm_compute. lia.
Defined.

(** A 16x16 plane has four blocks; the block of tile (1, 1) is the fourth. *)
Lemma blocks_in_raster_order_witness :
  length (_apply_dct collaborators (replicate 16 (replicate 16 0))).1.1 = 4%nat
  ∧ (_apply_dct collaborators (replicate 16 (replicate 16 0))).1.1 !! 3%nat
    = Some (Float32 (dct2 collaborators
                       (centred_block (replicate 16 (replicate 16 0)) 8 8))).
Proof.
  exact (blocks_in_raster_order collaborators (replicate 16 (replicate 16 0))
           16 16 1 1 eq_refl ltac:(vm_compute; lia) ltac:(vm_compute; lia)).
Defined.

(** One block fills an 8x8 plane and is too few for a 16x8 one. *)
Lemma apply_idct_bounds_witness :
  (∃ reconstructed,
     _apply_idct collaborators [Float32 (replicate 8 (replicate 8 0%float))] 8 8
     = Return reconstructed ∧ rect 8 8 reconstructed)
  ∧ _apply_idct collaborators [Float32 (replicate 8 (replicate 8 0%float))] 16 8
    = Raise IndexError.
Proof.
  assert (Forall block8 [Float32 (replicate 8 (replicate 8 0%float))]) as Hb.
  { apply Forall_singleton. apply rect_replicate. }
  split.
  - apply (proj1 (apply_idct_bounds collaborators _ 8 8
                    collaborators_shape_preserving Hb eq_refl eq_refl)).
    vm_compute. lia.
  - apply (proj2 (apply_idct_bounds collaborators _ 16 8
                    collaborators_shape_preserving Hb eq_refl eq_refl)).
    vm_compute. lia.
Defined.

(** Padding a 5x5 image twice is padding it once. *)
Lemma pad_image_idempotent_witness :
  _pad_image (_pad_image (flat_cover 5 9)) = _pad_image (flat_cover 5 9)
  ∧ tiles (round_up8 5) (round_up8 5) = tiles 5 5.
Proof.
  exact (pad_image_idempotent (flat_cover 5 9) 5 5
           (flat_cover_raster 5 9 ltac:(lia))).
Defined.

(** Of four blocks for a 16x16 plane, the third lands on tile (1, 0). *)
Lemma blocks_return_witness :
  ∃ reconstructed,
    _apply_idct collaborators
      (replicate 4 (Float32 (replicate 8 (replicate 8 0%float)))) 16 16
    = Return reconstructed
    ∧ rect 16 16 reconstructed
    ∧ slice8 reconstructed 8 0
      = map2d (λ x, PrimFloat.add x 128%float)
          (idct2 collaborators (Float32 (replicate 8 (replicate 8 0%float)))).
Proof.
  apply (blocks_return_to_their_tiles collaborators
           (replicate 4 (Float32 (replicate 8 (replicate 8 0%float))))
           16 16 1 0 (Float32 (replicate 8 (replicate 8 0%float)))
           collaborators_shape_preserving).
  - apply Forall_replicate. apply rect_replicate.
  - reflexivity.
  - reflexivity.
  - vm_compute. lia.
  - vm_compute. lia.
  - vm_compute. lia.
  - reflexivity.
Defined.

(** "h" takes one byte and e-acute two: 24 bits for two characters. *)
Lemma binary_message_size_witness :
  ∃ binary_message,
    _message_to_binary [104; 233] = Return binary_message
    ∧ length binary_message = 24%nat
    ∧ (8 * length [104; 233] ≤ length binary_message ≤ 32 * length [104; 233])%nat.
Proof.
  exists (lit "011010001100001110101001").
  split; [reflexivity|]. split; [reflexivity|].
  exact (proj1 (binary_message_size [104; 233] (lit "011010001100001110101001")
                  eq_refl)).
Defined.


(** A block of carriers -7 is stored as multiples of the table and comes
    back. *)
Lemma requantize_witness :
  quantize (dequantize (replicate 8 (replicate 8 (-7))))
  = replicate 8 (replicate 8 (-7)).
Proof.
  apply (requantize_stored_block (replicate 8 (replicate 8 (-7)))).
  - apply rect_replicate.
  - apply Forall_replicate, Forall_replicate. unfold is_int32. lia.
Defined.


